(** * compare_xml: unique-path XML comparison, embedded in Rocq

    A shallow embedding of [compare_xml.py]: the classes [WrappedElement],
    [XMLUniquePath] and [XMLCompare] become modules of pure functions over
    explicit state.  Python [str] values are lists of characters, [dict]s are
    [gmap]s, and the one exception the code can raise ([KeyError]) is an
    explicit error value. *)

From Stdlib Require Import Ascii String ZArith Lia DecimalString.
From stdpp Require Import base decidable option list sets gmap fin_maps fin_sets sorting.

Set Default Proof Using "Type".
Set Warnings "-register-all".

(** ** Python strings *)

(** A Python [str] is a sequence of characters. *)
Abbreviation str := (list ascii).

(** Literals: [py "/a/b"] is the string ['/a/b']. *)
Definition py (s : string) : str := list_ascii_of_string s.

Definition slash : ascii := "/"%char.
Definition newline : ascii := "010"%char.

Module PyStr.

(** [s[:n]]: a negative bound counts from the end, and bounds outside the
    string are clipped. *)
Definition slice_to (s : str) (n : Z) : str :=
  if decide (0 ≤ n)%Z then take (Z.to_nat n) s
  else take (length s - Z.to_nat (- n)) s.

(** [s.rfind(c)] for a one-character needle: the highest index holding
    [c], or [-1]. *)
Fixpoint rfind_from (c : ascii) (s : str) (i : Z) (found : Z) : Z :=
  match s with
  | [] => found
  | a :: s' => rfind_from c s' (i + 1) (if decide (a = c) then i else found)
  end.

Definition rfind (c : ascii) (s : str) : Z := rfind_from c s 0 (-1).

(** [s.replace(old, new)]: every non-overlapping occurrence of [old],
    found from the left, is replaced by [new].  [skip] counts the
    characters of a match that are still to be passed over. *)
Fixpoint replace_go (old new : str) (skip : nat) (s : str) : str :=
  match s with
  | [] => []
  | c :: s' =>
      match skip with
      | S k => replace_go old new k s'
      | O =>
          if decide (old `prefix_of` s)
          then new ++ replace_go old new (length old - 1) s'
          else c :: replace_go old new 0 s'
      end
  end.

(** With an empty [old], Python puts [new] before every character and at
    the end. *)
Definition replace (s old new : str) : str :=
  if decide (old = []) then new ++ flat_map (λ c, c :: new) s
  else replace_go old new 0 s.

End PyStr.

(** ** Errors *)

(** [KeyError k] is Python's exception for a missing dictionary key.
    [Unfinished] marks a loop cut off by its iteration budget; no run of the
    program reaches it (see [_replace_trans_finishes]). *)
Inductive exn :=
| KeyError (k : str)
| Unfinished.

Inductive result (A : Type) :=
| Ok (a : A)
| Raise (e : exn).
Arguments Ok {A} a.
Arguments Raise {A} e.

Global Instance result_ret : MRet result := λ A a, Ok a.
Global Instance result_bind : MBind result := λ A B f r,
  match r with
  | Ok a => f a
  | Raise e => Raise e
  end.

(** [for x in l: s = body(s, x)], stopping at the first exception. *)
Fixpoint for_each {A S} (body : S → A → result S) (l : list A) (s : S) : result S :=
  match l with
  | [] => Ok s
  | a :: l' => s' ← body s a; for_each body l' s'
  end.

(** ** The parsed tree (lxml's element tree, elements only) *)

(** An element has a tag, its attributes in document order (names are
    unique within one element), an optional text and its children. *)
Inductive Element :=
| Elem (tag : str) (attrib : list (str * str)) (text : option str)
       (children : list Element).

Definition tag (e : Element) : str := let 'Elem t _ _ _ := e in t.
Definition attrib (e : Element) : list (str * str) := let 'Elem _ a _ _ := e in a.
Definition text (e : Element) : option str := let 'Elem _ _ x _ := e in x.
Definition children (e : Element) : list Element := let 'Elem _ _ _ c := e in c.

(** [key in elem.attrib] and [elem.attrib[key]]. *)
Fixpoint attrib_get (a : list (str * str)) (key : str) : option str :=
  match a with
  | [] => None
  | (k, v) :: a' => if decide (k = key) then Some v else attrib_get a' key
  end.

(** The attributes as a Python [dict], which is how lxml compares two
    attribute mappings. *)
Definition attrib_dict (a : list (str * str)) : gmap str str := list_to_map a.

Module Lxml.

(** Decimal digits of a positive sibling index. *)
Definition decimal (n : nat) : str :=
  list_ascii_of_string (NilEmpty.string_of_uint (Nat.to_uint n)).

(** One step of [getpath]: ['/tag'], followed by the 1-based position
    among the siblings with the same tag when there is more than one. *)
Definition step (before : list Element) (c : Element) (after : list Element) : str :=
  let occur := length (filter (λ d, tag d = tag c) before) in
  if decide (occur = 0 ∧ filter (λ d, tag d = tag c) after = [])
  then slash :: tag c
  else slash :: tag c ++ py "[" ++ decimal (S occur) ++ py "]".

(** A node as the traversal sees it: the element, [getpath(elem)] and
    [getpath(elem.getparent())] ([None] for the root). *)
Record Node := {
  elem : Element;
  getpath : str;
  getparent : option str
}.

(** [root.iter()]: all elements in document order, the parent before its
    children. *)
Fixpoint iter_from (parent : option str) (path : str) (e : Element) : list Node :=
  {| elem := e; getpath := path; getparent := parent |} ::
  (fix siblings (before after : list Element) {struct after} : list Node :=
     match after with
     | [] => []
     | c :: rest =>
         iter_from (Some path) (path ++ step before c rest) c
         ++ siblings (before ++ [c]) rest
     end) [] (children e).

Definition iter (root : Element) : list Node :=
  iter_from None (slash :: tag root) root.

(** The traversal of the children [after] of the node at [path], whose
    earlier siblings are [before]: the inner loop of [iter_from], named. *)
Fixpoint iter_siblings (path : str) (before after : list Element) : list Node :=
  match after with
  | [] => []
  | c :: rest =>
      iter_from (Some path) (path ++ step before c rest) c
      ++ iter_siblings path (before ++ [c]) rest
  end.

End Lxml.

(** ** class WrappedElement *)

Module WrappedElement.

Record t := Wrap { element : Element }.

(** [__eq__]: the attribute mappings are equal as dictionaries and the
    texts are equal.  (Only wrappers are ever compared, so the
    [isinstance] test succeeds.) *)
Definition __eq__ (self other : t) : bool :=
  bool_decide (attrib_dict (attrib (element self)) = attrib_dict (attrib (element other)))
  && bool_decide (text (element self) = text (element other)).

(** The members of the tuple that [__hash__] hands to [hash]: the
    [(name, value)] pairs in stored order, then the text or [None]. *)
Inductive TupleItem :=
| Pair (name value : str)
| Text (s : str)
| PyNone.

Global Instance TupleItem_eq_dec : EqDecision TupleItem.
Proof. solve_decision. Defined.

Definition hashed_tuple (self : t) : list TupleItem :=
  ((λ kv, Pair kv.1 kv.2) <$> attrib (element self))
  ++ [match text (element self) with Some s => Text s | None => PyNone end].

Section Hash.
(** Python's built-in [hash] on tuples. *)
Variable py_hash : list TupleItem → Z.

Definition __hash__ (self : t) : Z := py_hash (hashed_tuple self).
End Hash.

End WrappedElement.

(** ** Python sets of wrappers *)

Module PySet.
Section Hash.
Variable py_hash : list WrappedElement.TupleItem → Z.

(** A set takes two objects for the same member when their hashes are
    equal and [__eq__] holds. *)
Definition same_member (x y : WrappedElement.t) : bool :=
  bool_decide (WrappedElement.__hash__ py_hash x = WrappedElement.__hash__ py_hash y)
  && WrappedElement.__eq__ x y.

Definition contains (s : list WrappedElement.t) (x : WrappedElement.t) : bool :=
  existsb (λ y, same_member y x) s.

Definition add (s : list WrappedElement.t) (x : WrappedElement.t) : list WrappedElement.t :=
  if contains s x then s else s ++ [x].

(** [set(l)]: the members in order of first insertion. *)
Definition of_list (l : list WrappedElement.t) : list WrappedElement.t :=
  foldl add [] l.

(** [s1 == s2]: equal sizes and every member of [s1] found in [s2]. *)
Definition eqb (s1 s2 : list WrappedElement.t) : bool :=
  bool_decide (length s1 = length s2) && forallb (contains s2) s1.
End Hash.
End PySet.

(** ** class XMLUniquePath *)

Module XMLUniquePath.
Import Lxml.

Record t := {
  root : Element;
  _special_attribs : list str;
  _max_text_len : Z;
  paths : gmap str (list WrappedElement.t);
  _trans_table : gmap str str
}.

(** How the [while] loop of [_replace_trans] is left. *)
Inductive loop_exit :=
| Returned (v : str)
| Exited (new_path : str)
| OutOfBudget.

Fixpoint lop_loop (budget : nat) (table : gmap str str) (path new_path : str) : loop_exit :=
  match budget with
  | O => OutOfBudget
  | S budget' =>
      if decide (0 < length new_path) then
        if decide (is_Some (table !! new_path)) then Exited new_path
        else
          let back_one := PyStr.rfind slash new_path in
          if decide (back_one ≤ 0)%Z then Returned path
          else lop_loop budget' table path (PyStr.slice_to new_path back_one)
      else Exited new_path
  end.

Definition _replace_trans (self : t) (path : str) : result str :=
  if decide (size (_trans_table self) = 0) then Ok path
  else
    match lop_loop (S (length path)) (_trans_table self) path path with
    | Returned v => Ok v
    | Exited new_path =>
        match _trans_table self !! new_path with
        | Some translation => Ok (PyStr.replace path new_path translation)
        | None => Raise (KeyError new_path)
        end
    | OutOfBudget => Raise Unfinished
    end.

(** Step 1: the value of the first special attribute the element has. *)
Fixpoint first_special (keys : list str) (elem : Element) : str :=
  match keys with
  | [] => []
  | key :: keys' =>
      match attrib_get (attrib elem) key with
      | Some v => v
      | None => first_special keys' elem
      end
  end.

(** Steps 1 and 2. *)
Definition fragment (self : t) (elem : Element) : str :=
  let unique_str := first_special (_special_attribs self) elem in
  match text elem with
  | Some s => if decide (unique_str = [] ∧ 0 < length s) then s else unique_str
  | None => unique_str
  end.

(** Step 3. *)
Definition sanitize (unique_str : str) : str :=
  PyStr.replace (PyStr.replace unique_str [newline] []) [slash] [].

(** Step 4. *)
Definition limit (self : t) (unique_str : str) : str :=
  if decide (_max_text_len self < Z.of_nat (length unique_str))%Z
  then PyStr.slice_to unique_str (_max_text_len self - 1)
  else unique_str.

Definition unique_str (self : t) (elem : Element) : str :=
  limit self (sanitize (fragment self elem)).

(** The body of the loop over [self.root.iter()]. *)
Definition visit (self : t) (node : Node) : result t :=
  let unique_str := unique_str self (elem node) in
  parent_path ← _replace_trans self (default [] (getparent node));
  let translated_path := parent_path ++ slash :: tag (elem node) ++ unique_str in
  let table := <[getpath node := translated_path]> (_trans_table self) in
  let wrapped := WrappedElement.Wrap (elem node) in
  let paths' :=
    match paths self !! translated_path with
    | Some l => <[translated_path := l ++ [wrapped]]> (paths self)
    | None => <[translated_path := [wrapped]]> (paths self)
    end in
  Ok {| root := root self;
        _special_attribs := _special_attribs self;
        _max_text_len := _max_text_len self;
        paths := paths';
        _trans_table := table |}.

Definition _create_path_tree (self : t) : result t :=
  for_each visit (iter (root self))
    {| root := root self;
       _special_attribs := _special_attribs self;
       _max_text_len := _max_text_len self;
       paths := ∅;
       _trans_table := ∅ |}.

Definition __init__ (root : Element) (special_attribs : list str) (max_text_len : Z) : result t :=
  _create_path_tree
    {| root := root;
       _special_attribs := special_attribs;
       _max_text_len := max_text_len;
       paths := ∅;
       _trans_table := ∅ |}.

End XMLUniquePath.

(** ** class XMLCompare *)

Module XMLCompare.

(** A value of [diff_items]: a dictionary with the keys ['root1'] and
    ['root2'], each optional. *)
Record DiffInfo := {
  root1 : option (list WrappedElement.t);
  root2 : option (list WrappedElement.t)
}.

Record t := {
  diff_items : gmap str DiffInfo;
  _paths1 : XMLUniquePath.t;
  _paths2 : XMLUniquePath.t
}.

Definition set_diff_items (d : gmap str DiffInfo) (self : t) : t :=
  {| diff_items := d; _paths1 := _paths1 self; _paths2 := _paths2 self |}.

Section Hash.
Variable py_hash : list WrappedElement.TupleItem → Z.

(** The keys iterated over come from the dictionaries themselves, so
    [paths[key]] is always present. *)
Definition _compare (self : t) : t :=
  let paths1 := XMLUniquePath.paths (_paths1 self) in
  let paths2 := XMLUniquePath.paths (_paths2 self) in
  let paths1_set : gset str := dom paths1 in
  let paths2_set : gset str := dom paths2 in
  let d1 :=
    set_fold (λ key d, <[key := {| root1 := Some (paths1 !!! key); root2 := None |}]> d)
      (diff_items self) (paths1_set ∖ paths2_set) in
  let d2 :=
    set_fold (λ key d, <[key := {| root1 := None; root2 := Some (paths2 !!! key) |}]> d)
      d1 (paths2_set ∖ paths1_set) in
  let d3 :=
    set_fold (λ key d,
        if PySet.eqb py_hash (PySet.of_list py_hash (paths1 !!! key))
             (PySet.of_list py_hash (paths2 !!! key))
        then d
        else <[key := {| root1 := Some (paths1 !!! key);
                         root2 := Some (paths2 !!! key) |}]> d)
      d2 (paths1_set ∩ paths2_set) in
  set_diff_items d3 self.

Definition __init__ (root1 root2 : Element) (special_attribs : list str)
    (max_text_len : Z) : result t :=
  paths1 ← XMLUniquePath.__init__ root1 special_attribs max_text_len;
  paths2 ← XMLUniquePath.__init__ root2 special_attribs max_text_len;
  Ok (_compare {| diff_items := ∅; _paths1 := paths1; _paths2 := paths2 |}).
End Hash.

Definition the_same (self : t) : bool :=
  bool_decide (size (diff_items self) = 0).

End XMLCompare.

(** ** Vocabulary of the specification *)

(** [lopped p q]: [q] is [p] or is obtained from [p] by stripping the last
    ['/segment'] one or more times, never down to the empty string. *)
Inductive lopped : str → str → Prop :=
| lopped_here p : lopped p p
| lopped_back p q :
    (0 < PyStr.rfind slash p)%Z →
    lopped (PyStr.slice_to p (PyStr.rfind slash p)) q →
    lopped p q.

(** What the loop of [_replace_trans] has established when it is left: an
    early return means that no lopped path is a key; leaving it through
    [break] means that [new_path] is the longest lopped path that is a key. *)
Definition loop_post (table : gmap str str) (path new_path : str)
    (x : XMLUniquePath.loop_exit) : Prop :=
  match x with
  | XMLUniquePath.Returned v => v = path ∧ ∀ q, lopped new_path q → table !! q = None
  | XMLUniquePath.Exited q =>
      lopped new_path q ∧ is_Some (table !! q) ∧
      ∀ q', lopped new_path q' → length q < length q' → table !! q' = None
  | XMLUniquePath.OutOfBudget => False
  end.

(** What a Python set looks at in a wrapper: its hash, its attribute
    mapping and its text. *)
Definition member_key (py_hash : list WrappedElement.TupleItem → Z)
    (x : WrappedElement.t) : Z * gmap str str * option str :=
  (WrappedElement.__hash__ py_hash x,
   attrib_dict (attrib (WrappedElement.element x)),
   text (WrappedElement.element x)).

(** Two lists of wrappers hold the same set when every wrapper has a
    counterpart, as a set member, in the other list. *)
Definition same_set (py_hash : list WrappedElement.TupleItem → Z)
    (l1 l2 : list WrappedElement.t) : Prop :=
  ∀ x, (∃ y, y ∈ l1 ∧ PySet.same_member py_hash y x = true)
       ↔ (∃ y, y ∈ l2 ∧ PySet.same_member py_hash y x = true).

(** The content of a wrapper: its attribute mapping and its text. *)
Definition content (x : WrappedElement.t) : gmap str str * option str :=
  (attrib_dict (attrib (WrappedElement.element x)), text (WrappedElement.element x)).

(** The synthetic path of every node, as the specification defines it:
    the synthetic path of the parent (the empty string above the root),
    then ['/'], the tag and the sanitised, truncated fragment.  The list
    is in document order and pairs each path with the node's wrapper. *)
Fixpoint synth (self : XMLUniquePath.t) (parent_path : str) (e : Element)
    : list (str * WrappedElement.t) :=
  match e with
  | Elem tg _ _ cs =>
      let path := parent_path ++ slash :: tg ++ XMLUniquePath.unique_str self e in
      (path, WrappedElement.Wrap e) :: flat_map (synth self path) cs
  end.

(** The wrappers of the nodes whose synthetic path is [k]. *)
Definition wrappers_at (k : str) (l : list (str * WrappedElement.t))
    : list WrappedElement.t :=
  (filter (λ kw, kw.1 = k) l).*2.

(** Appending a wrapper to the list under its path, as step 8 of
    [_create_path_tree] does. *)
Definition record_path (paths : gmap str (list WrappedElement.t))
    (kw : str * WrappedElement.t) : gmap str (list WrappedElement.t) :=
  match paths !! kw.1 with
  | Some l => <[kw.1 := l ++ [kw.2]]> paths
  | None => <[kw.1 := [kw.2]]> paths
  end.

Definition collect (l : list (str * WrappedElement.t))
    (paths : gmap str (list WrappedElement.t)) : gmap str (list WrappedElement.t) :=
  foldl record_path paths l.

(** Two uniquifiers with the same configuration. *)
Definition same_config (self self' : XMLUniquePath.t) : Prop :=
  XMLUniquePath._special_attribs self' = XMLUniquePath._special_attribs self
  ∧ XMLUniquePath._max_text_len self' = XMLUniquePath._max_text_len self.

(** [reorder e e']: [e'] is [e] with the children of any of its nodes
    permuted. *)
Inductive reorder : Element → Element → Prop :=
| reorder_children tg a tx cs cs' cs'' :
    Forall2 reorder cs cs' →
    cs' ≡ₚ cs'' →
    reorder (Elem tg a tx cs) (Elem tg a tx cs'').

(** What visiting the subtree [e] does, when the synthetic path of its
    parent resolves to [parent_path]: no exception, the wrappers of the
    subtree are appended under the synthetic paths of the specification,
    and the table is only changed at keys at least as long as the raw
    path of the subtree. *)
Definition subtree_visited (e : Element) : Prop :=
  ∀ par p self parent_path,
    XMLUniquePath._replace_trans self (default [] par) = Ok parent_path →
    ∃ self',
      for_each XMLUniquePath.visit (Lxml.iter_from par p e) self = Ok self'
      ∧ same_config self self'
      ∧ XMLUniquePath.paths self' = collect (synth self parent_path e) (XMLUniquePath.paths self)
      ∧ (∀ q, length q < length p → XMLUniquePath._trans_table self' !! q = XMLUniquePath._trans_table self !! q)
      ∧ XMLUniquePath._trans_table self' !! p
        = Some (parent_path ++ slash :: tag e ++ XMLUniquePath.unique_str self e).

(** What a wrapper stores of its node besides the tag and the children:
    the attributes in stored order and the text. *)
Definition stored (x : WrappedElement.t) : list (str * str) * option str :=
  (attrib (WrappedElement.element x), text (WrappedElement.element x)).

(** The synthetic paths and stored contents of the nodes, as a list. *)
Definition synth_stored (self : XMLUniquePath.t) (parent_path : str) (e : Element) :
    list (str * (list (str * str) * option str)) :=
  prod_map id stored <$> synth self parent_path e.

(** Two lists hold the same set of wrappers, by wrapper equality: every
    wrapper has an equal one ([__eq__]: same attribute mapping, same text)
    in the other list. *)
Definition same_wrappers (l1 l2 : list WrappedElement.t) : Prop :=
  ∀ x, (∃ y, y ∈ l1 ∧ WrappedElement.__eq__ y x = true)
       ↔ (∃ y, y ∈ l2 ∧ WrappedElement.__eq__ y x = true).

(** ** Further vocabulary *)

(** The entry of a key when the two documents change places. *)
Definition swap_roots (d : XMLCompare.DiffInfo) : XMLCompare.DiffInfo :=
  {| XMLCompare.root1 := XMLCompare.root2 d; XMLCompare.root2 := XMLCompare.root1 d |}.

(** A document whose root has the child [c] once, and the same document
    with [c] twice in a row. *)
Definition with_child (tg : str) (a : list (str * str)) (tx : option str)
    (cs1 : list Element) (c : Element) (cs2 : list Element) : Element :=
  Elem tg a tx (cs1 ++ c :: cs2).
Definition with_child_twice (tg : str) (a : list (str * str)) (tx : option str)
    (cs1 : list Element) (c : Element) (cs2 : list Element) : Element :=
  Elem tg a tx (cs1 ++ c :: c :: cs2).

(** Every lookup of a run over the nodes [l] is exact: a node without
    parent is looked up while the table is empty, and the raw path of any
    other node's parent is a key of the table, whose value the lookup
    returns. *)
Fixpoint lookups_exact (l : list Lxml.Node) (self : XMLUniquePath.t) : Prop :=
  match l with
  | [] => True
  | n :: l' =>
      match Lxml.getparent n with
      | None => XMLUniquePath._trans_table self = ∅
      | Some p =>
          ∃ t, XMLUniquePath._trans_table self !! p = Some t
               ∧ XMLUniquePath._replace_trans self p = Ok t
      end
      ∧ ∃ self', XMLUniquePath.visit self n = Ok self' ∧ lookups_exact l' self'
  end.

(** The assignments [table[k] = v] of a list, from left to right. *)
Definition insert_all (l : list (str * str)) (table : gmap str str) : gmap str str :=
  foldl (λ t kv, <[kv.1 := kv.2]> t) table l.

(** The parent of the subtree can be looked up exactly. *)
Definition parent_known (par : option str) (self : XMLUniquePath.t) : Prop :=
  match par with
  | None => XMLUniquePath._trans_table self = ∅
  | Some p => is_Some (XMLUniquePath._trans_table self !! p)
  end.

(** The raw path of every node of the subtree, with its synthetic path. *)
Definition raw_to_synth (self : XMLUniquePath.t) (parent_path : str) (par : option str)
    (p : str) (e : Element)
    : list (str * str) :=
  zip (Lxml.getpath <$> Lxml.iter_from par p e) (synth self parent_path e).*1.

Definition subtree_table (e : Element) : Prop :=
  ∀ par p self parent_path self',
    XMLUniquePath._replace_trans self (default [] par) = Ok parent_path →
    for_each XMLUniquePath.visit (Lxml.iter_from par p e) self = Ok self' →
    XMLUniquePath._trans_table self'
    = insert_all (raw_to_synth self parent_path par p e) (XMLUniquePath._trans_table self).

(** ** XMLCompare.get_diffs_as_string *)

(** [max(l)], which raises [ValueError] ([None]) on an empty list. *)
Definition py_max (l : list nat) : option nat :=
  match l with
  | [] => None
  | x :: l' => Some (foldl Nat.max x l')
  end.

Section Report.
(** The wrappers of a diff entry stand for nodes of the two trees.  What
    the report prints of the node itself is given for the [i]-th wrapper
    under the key [k] of the first ([true]) or second ([false]) document:
    [str(elem.sourceline)] and [root.getpath(elem)].  [attrib_repr] is
    [str(elem.attrib)]. *)
Variable sourceline : bool → str → nat → str.
Variable getpath_of : bool → str → nat → str.
Variable attrib_repr : list (str * str) → str.

(** The lines of one wrapped element. *)
Definition write_elem (first : bool) (k : str) (i : nat) (wrapped_elem : WrappedElement.t)
    : str :=
  let elem := WrappedElement.element wrapped_elem in
  py "    Line " ++ sourceline first k i ++ py ":" ++ [newline]
  ++ py "            Path = " ++ getpath_of first k i ++ [newline]
  ++ (if decide (0 < length (attrib elem))
      then py "      Attributes = " ++ attrib_repr (attrib elem) ++ [newline]
      else [])
  ++ match text elem with
     | Some t => if decide (t = []) then [] else py "            Text = " ++ t ++ [newline]
     | None => []
     end.

(** The part of an entry for one of ['root1'], ['root2'], when present. *)
Definition write_root (first : bool) (k : str) (ws : option (list WrappedElement.t)) : str :=
  match ws with
  | None => []
  | Some ws =>
      py "  " ++ (if first then py "root1" else py "root2") ++ [newline]
      ++ mjoin (imap (write_elem first k) ws)
  end.

(** The block of one key: a rule of [width] signs [=], the key, then the
    two parts. *)
Definition write_entry (width : nat) (kd : str * XMLCompare.DiffInfo) : str :=
  replicate width "="%char ++ [newline] ++ kd.1 ++ [newline]
  ++ write_root true kd.1 (XMLCompare.root1 kd.2)
  ++ write_root false kd.1 (XMLCompare.root2 kd.2).

(** [self.diff_items.items()].  A Python dictionary iterates in the order
    in which its keys were inserted, which the mapping does not record:
    [order] is that order of the keys. *)
Definition dict_items (order : list str) (d : gmap str XMLCompare.DiffInfo)
    : list (str * XMLCompare.DiffInfo) :=
  omap (λ k, pair k <$> d !! k) order.

(** [order] is the insertion order of [self.diff_items]; [None] stands for
    the [ValueError] of [max] on an empty list. *)
Definition get_diffs_as_string (order : list str) (self : XMLCompare.t) : option str :=
  if XMLCompare.the_same self then Some []
  else
    max_key_len ← py_max (length <$> (dict_items order (XMLCompare.diff_items self)).*1);
    Some (py "Different items" ++ [newline]
          ++ mjoin (write_entry (max_key_len + 8)
                      <$> dict_items order (XMLCompare.diff_items self))).
End Report.

(** The order in which [_compare] inserts the keys into [diff_items]: the
    keys of document 1 only, then the keys of document 2 only, then the
    shared keys whose sets differ.  Within each loop the keys come in the
    iteration order of a Python set, which the language leaves open; it
    is taken as the order in which [set_fold] visits the set. *)
Definition insertion_order (py_hash : list WrappedElement.TupleItem → Z)
    (self : XMLCompare.t) : list str :=
  let paths1 := XMLUniquePath.paths (XMLCompare._paths1 self) in
  let paths2 := XMLUniquePath.paths (XMLCompare._paths2 self) in
  let paths1_set : gset str := dom paths1 in
  let paths2_set : gset str := dom paths2 in
  reverse (elements (paths1_set ∖ paths2_set))
  ++ reverse (elements (paths2_set ∖ paths1_set))
  ++ filter (λ key, PySet.eqb py_hash (PySet.of_list py_hash (paths1 !!! key))
                      (PySet.of_list py_hash (paths2 !!! key)) = false)
       (reverse (elements (paths1_set ∩ paths2_set))).

(** ** Sample inputs *)

(** A uniquifier whose translation table is [table]. *)
Definition with_table (table : gmap str str) : XMLUniquePath.t :=
  {| XMLUniquePath.root := Elem (py "r") [] None [];
     XMLUniquePath._special_attribs := [];
     XMLUniquePath._max_text_len := 80;
     XMLUniquePath.paths := ∅;
     XMLUniquePath._trans_table := table |}.

(** A uniquifier with the given configuration, before any node is seen. *)
Definition configured (special_attribs : list str) (max_text_len : Z) : XMLUniquePath.t :=
  {| XMLUniquePath.root := Elem (py "r") [] None [];
     XMLUniquePath._special_attribs := special_attribs;
     XMLUniquePath._max_text_len := max_text_len;
     XMLUniquePath.paths := ∅;
     XMLUniquePath._trans_table := ∅ |}.

(** [<e name="">hello</e>] *)
Definition empty_name_elem : Element :=
  Elem (py "e") [(py "name", [])] (Some (py "hello")) [].

(** [<e id="7" name="n">t</e>] *)
Definition two_attr_elem : Element :=
  Elem (py "e") [(py "id", py "7"); (py "name", py "n")] (Some (py "t")) [].

(** The only node of the document [<e>abcdef</e>]. *)
Definition long_text_node : Lxml.Node :=
  {| Lxml.elem := Elem (py "e") [] (Some (py "abcdef")) [];
     Lxml.getpath := py "/e";
     Lxml.getparent := None |}.

(** An element whose text is [n] times the letter [a]. *)
Definition letters_elem (n : nat) : Element :=
  Elem (py "e") [] (Some (replicate n "a"%char)) [].

(** [<e a="1" b="2"/>] and [<e b="2" a="1"/>]: the same attribute mapping,
    written in two orders. *)
Definition elem_ab : Element :=
  Elem (py "e") [(py "a", py "1"); (py "b", py "2")] None [].
Definition elem_ba : Element :=
  Elem (py "e") [(py "b", py "2"); (py "a", py "1")] None [].

(** A hash that tells the tuple of [elem_ab] from every other tuple. *)
Definition telling_hash (x : list WrappedElement.TupleItem) : Z :=
  if decide (x = WrappedElement.hashed_tuple (WrappedElement.Wrap elem_ab))
  then 1%Z else 0%Z.

(** [<r><a/><a/></r>]: two children that no heuristic can tell apart. *)
Definition twins_doc : Element :=
  Elem (py "r") [] None [Elem (py "a") [] None []; Elem (py "a") [] None []].

(** [<r><e a="1" b="2"/></r>] and [<r><e b="2" a="1"/></r>]. *)
Definition doc_ab : Element := Elem (py "r") [] None [elem_ab].
Definition doc_ba : Element := Elem (py "r") [] None [elem_ba].

(** The scenario of the specification: two items told apart by [name],
    in both orders. *)
Definition item (name value : string) : Element :=
  Elem (py "Item") [(py "name", py name)] None [Elem (py "V") [] (Some (py value)) []].
Definition doc_xy : Element := Elem (py "Root") [] None [item "x" "1"; item "y" "2"].
Definition doc_yx : Element := Elem (py "Root") [] None [item "y" "2"; item "x" "1"].

(** [<e>ab/c</e>]: a text with a path separator. *)
Definition slash_text_elem : Element := Elem (py "e") [] (Some (py "ab/c")) [].

(** [<r>x</r>] and [<r>y</r>]. *)
Definition doc_rx : Element := Elem (py "r") [] (Some (py "x")) [].
Definition doc_ry : Element := Elem (py "r") [] (Some (py "y")) [].

(** * Properties *)

(** ** Strings *)

Section strings.
Implicit Types (s old new : str) (c : ascii).

Lemma rfind_from_bounds c s i found :
  (found < i)%Z →
  let r := PyStr.rfind_from c s i found in
  (r = found ∨ (i ≤ r < i + Z.of_nat (length s))%Z).
Proof.
  revert i found. induction s as [|a s IH]; intros i found Hlt; simpl; [by left|].
  case_decide.
  - destruct (IH (i + 1)%Z i ltac:(lia)) as [->|?]; right; lia.
  - destruct (IH (i + 1)%Z found ltac:(lia)) as [->|?]; [by left|right; lia].
Qed.

Lemma rfind_lt c s : (PyStr.rfind c s < Z.of_nat (length s))%Z.
Proof.
  unfold PyStr.rfind.
  destruct (rfind_from_bounds c s 0 (-1) ltac:(lia)) as [->|?]; lia.
Qed.

Lemma slice_to_length_inside s n :
  (0 ≤ n ≤ Z.of_nat (length s))%Z → length (PyStr.slice_to s n) = Z.to_nat n.
Proof.
  intros ?. unfold PyStr.slice_to. rewrite decide_True by lia.
  rewrite length_take. lia.
Qed.

Lemma slice_to_prefix s n : PyStr.slice_to s n `prefix_of` s.
Proof. unfold PyStr.slice_to. case_decide; apply prefix_take. Qed.

Lemma slice_to_take s n : (0 ≤ n)%Z → PyStr.slice_to s n = take (Z.to_nat n) s.
Proof. intros ?. unfold PyStr.slice_to. by rewrite decide_True. Qed.

Lemma replace_go_skip_all old new k s :
  length s ≤ k → PyStr.replace_go old new k s = [].
Proof.
  revert k. induction s as [|a s IH]; intros k Hk; [done|].
  destruct k as [|k]; simpl in *; [lia|]. apply IH. lia.
Qed.

(** Replacing the whole of a non-empty string gives the replacement. *)
Lemma replace_self s new : s ≠ [] → PyStr.replace s s new = new.
Proof.
  intros Hs. unfold PyStr.replace. rewrite decide_False by done.
  destruct s as [|a s]; [done|]. simpl.
  rewrite decide_True by done.
  rewrite replace_go_skip_all by (simpl; lia). by rewrite app_nil_r.
Qed.

Lemma lopped_length p q : lopped p q → length q ≤ length p.
Proof.
  induction 1 as [|p q Hpos _ IH]; [done|].
  pose proof (rfind_lt slash p).
  rewrite slice_to_length_inside in IH by lia. lia.
Qed.

Lemma lopped_prefix p q : lopped p q → q `prefix_of` p.
Proof.
  induction 1 as [|p q Hpos _ IH]; [done|].
  etrans; [exact IH|]. apply slice_to_prefix.
Qed.

Lemma lopped_nonempty p q : p ≠ [] → lopped p q → q ≠ [].
Proof.
  intros Hp. induction 1 as [|p q Hpos _ IH]; [done|].
  apply IH. intros Hnil. apply (f_equal length) in Hnil.
  pose proof (rfind_lt slash p).
  rewrite slice_to_length_inside in Hnil by lia. simpl in Hnil. lia.
Qed.

(** Python's behaviour on small inputs. *)
Example slice_to_inside : PyStr.slice_to (py "abcdef") 2 = py "ab".
Proof. reflexivity. Qed.

Example slice_to_negative : PyStr.slice_to (py "abcdef") (-1) = py "abcde".
Proof. reflexivity. Qed.

Example slice_to_clipped : PyStr.slice_to (py "abc") 7 = py "abc".
Proof. reflexivity. Qed.

Example rfind_last : PyStr.rfind slash (py "/a/b[2]/c") = 7%Z.
Proof. reflexivity. Qed.

Example rfind_absent : PyStr.rfind slash (py "abc") = (-1)%Z.
Proof. reflexivity. Qed.

Example replace_every_occurrence :
  PyStr.replace (py "/a/a/b") (py "/a") (py "/aX") = py "/aX/aX/b".
Proof. vm_compute. reflexivity. Qed.

Example replace_does_not_overlap :
  PyStr.replace (py "aaa") (py "aa") (py "b") = py "ba".
Proof. vm_compute. reflexivity. Qed.

Example replace_empty_needle :
  PyStr.replace (py "ab") (py "") (py "-") = py "-a-b-".
Proof. vm_compute. reflexivity. Qed.

End strings.

(** ** The translation lookup [_replace_trans] *)

Section replace_trans.
Import XMLUniquePath.
Implicit Types (table : gmap str str) (path new_path : str).

Lemma lop_loop_post budget table path new_path :
  length new_path < budget → new_path ≠ [] →
  loop_post table path new_path (lop_loop budget table path new_path).
Proof.
  revert new_path. induction budget as [|budget IH]; intros np Hb Hne; [lia|].
  simpl. rewrite decide_True by (destruct np; simpl; [done|lia]).
  destruct (decide (is_Some (table !! np))) as [Hin|Hout].
  { simpl. split_and!; [constructor|done|].
    intros q' Hq' Hlen. apply lopped_length in Hq'. lia. }
  apply eq_None_not_Some in Hout.
  destruct (decide (PyStr.rfind slash np ≤ 0)%Z) as [Hle|Hgt].
  { simpl. split; [done|]. intros q Hq. inversion Hq; subst; [done|lia]. }
  pose proof (rfind_lt slash np) as Hlt.
  set (np' := PyStr.slice_to np (PyStr.rfind slash np)).
  assert (length np' = Z.to_nat (PyStr.rfind slash np)) as Hlen'
    by (apply slice_to_length_inside; lia).
  specialize (IH np' ltac:(lia) ltac:(intros E; rewrite E in Hlen'; simpl in Hlen'; lia)).
  destruct (lop_loop budget table path np') as [v|q|]; simpl in *; [| |done].
  - destruct IH as [-> IH]. split; [done|].
    intros q Hq. inversion Hq; subst; [done|]. by apply IH.
  - destruct IH as (Hq & Hsome & Hlongest). split_and!; [|done|].
    + apply lopped_back; [lia|done].
    + intros q' Hq' Hlen. inversion Hq'; subst; [done|]. by apply Hlongest.
Qed.

(** The loop always finishes within its budget. *)
Lemma _replace_trans_finishes self path :
  _replace_trans self path ≠ Raise Unfinished.
Proof.
  unfold _replace_trans. case_decide; [done|].
  destruct path as [|a path].
  { simpl. by destruct (_trans_table self !! []). }
  pose proof (lop_loop_post (S (length (a :: path))) (_trans_table self)
    (a :: path) (a :: path) ltac:(lia) ltac:(done)) as Hpost.
  destruct (lop_loop _ _ _ _) as [v|q|]; [done| |done].
  by destruct (_trans_table self !! q).
Qed.

Lemma _replace_trans_empty_table self path :
  _trans_table self = ∅ → _replace_trans self path = Ok path.
Proof.
  intros E. unfold _replace_trans. rewrite E, map_size_empty. by rewrite decide_True.
Qed.

Lemma _replace_trans_no_match self path :
  path ≠ [] →
  (∀ q, lopped path q → _trans_table self !! q = None) →
  _replace_trans self path = Ok path.
Proof.
  intros Hne Hnone. unfold _replace_trans. case_decide; [done|].
  pose proof (lop_loop_post (S (length path)) (_trans_table self)
    path path ltac:(lia) Hne) as Hpost.
  destruct (lop_loop _ _ _ _) as [v|q|]; simpl in Hpost; [|exfalso|done].
  - by destruct Hpost as [-> _].
  - destruct Hpost as (Hq & [t Ht] & _). rewrite (Hnone q Hq) in Ht. done.
Qed.

Lemma _replace_trans_longest self path q translation :
  path ≠ [] →
  lopped path q →
  _trans_table self !! q = Some translation →
  (∀ q', lopped path q' → length q < length q' → _trans_table self !! q' = None) →
  _replace_trans self path = Ok (PyStr.replace path q translation).
Proof.
  intros Hne Hq Hsome Hlongest. unfold _replace_trans.
  rewrite decide_False; last first.
  { intros Hsz. apply map_size_empty_inv in Hsz. rewrite Hsz in Hsome.
    by rewrite lookup_empty in Hsome. }
  pose proof (lop_loop_post (S (length path)) (_trans_table self)
    path path ltac:(lia) Hne) as Hpost.
  destruct (lop_loop _ _ _ _) as [v|q0|]; simpl in Hpost; [exfalso| |done].
  - destruct Hpost as [_ Hnone]. rewrite (Hnone q Hq) in Hsome. done.
  - destruct Hpost as (Hq0 & [t0 Ht0] & Hlongest0).
    assert (q0 = q) as ->.
    { destruct (lopped_prefix _ _ Hq) as [k Hk].
      destruct (lopped_prefix _ _ Hq0) as [k0 Hk0].
      destruct (decide (length q0 < length q)) as [Hlt|Hge].
      { rewrite (Hlongest0 q Hq Hlt) in Hsome. done. }
      destruct (decide (length q < length q0)) as [Hlt|Hge'].
      { rewrite (Hlongest q0 Hq0 Hlt) in Ht0. done. }
      assert (length q0 = length q) as Hlen by lia.
      rewrite Hk0 in Hk. by eapply app_inj_1 in Hk as [? _]. }
    by rewrite Hsome.
Qed.

Lemma _replace_trans_exact self path translation :
  _trans_table self !! path = Some translation →
  _replace_trans self path = Ok translation.
Proof.
  intros Hsome. destruct (decide (path = [])) as [->|Hne].
  { unfold _replace_trans. rewrite decide_False; last first.
    { intros Hsz. apply map_size_empty_inv in Hsz. rewrite Hsz in Hsome.
      by rewrite lookup_empty in Hsome. }
    simpl. rewrite Hsome. unfold PyStr.replace. simpl. by rewrite app_nil_r. }
  rewrite (_replace_trans_longest self path path translation); try done.
  - by rewrite replace_self.
  - constructor.
  - intros q' Hq' Hlen. apply lopped_length in Hq'. lia.
Qed.

End replace_trans.

Section replace_trans_claims.
Import XMLUniquePath.

(** C8: the translation lookup.  With an empty table the path comes back
    unchanged.  For a raw structural path (which is never empty): when
    neither the path nor any path lopped from it is a key, the path comes
    back unchanged; otherwise the longest lopped path that is a key is
    replaced by its translation.  When the path itself is a key, the
    result is its recorded synthetic path. *)
Theorem replace_trans_lookup (self : XMLUniquePath.t) (path : str) :
  (_trans_table self = ∅ → _replace_trans self path = Ok path)
  ∧ (path ≠ [] →
     (∀ q, lopped path q → _trans_table self !! q = None) →
     _replace_trans self path = Ok path)
  ∧ (path ≠ [] →
     ∀ q translation,
       lopped path q →
       _trans_table self !! q = Some translation →
       (∀ q', lopped path q' → length q < length q' → _trans_table self !! q' = None) →
       _replace_trans self path = Ok (PyStr.replace path q translation))
  ∧ (∀ translation,
       _trans_table self !! path = Some translation →
       _replace_trans self path = Ok translation).
Proof.
  split_and!.
  - apply _replace_trans_empty_table.
  - apply _replace_trans_no_match.
  - intros Hne q translation. by apply _replace_trans_longest.
  - apply _replace_trans_exact.
Qed.

Lemma replace_trans_lookup_witness :
  _replace_trans (with_table ∅) (py "/a/b") = Ok (py "/a/b")
  ∧ _replace_trans (with_table {[ py "/z" := py "/zq" ]}) (py "/a/b") = Ok (py "/a/b")
  ∧ _replace_trans (with_table {[ py "/a" := py "/ax" ]}) (py "/a/b[2]/c")
    = Ok (py "/ax/b[2]/c")
  ∧ _replace_trans (with_table {[ py "/a/b" := py "/ax/by" ]}) (py "/a/b")
    = Ok (py "/ax/by").
Proof.
  split_and!.
  - apply (proj1 (replace_trans_lookup (with_table ∅) (py "/a/b"))). reflexivity.
  - apply (proj1 (proj2 (replace_trans_lookup
             (with_table {[ py "/z" := py "/zq" ]}) (py "/a/b")))); [discriminate|].
    intros q Hq.
    inversion Hq as [|? ? Hpos Hq1]; subst; [reflexivity|].
    inversion Hq1 as [|? ? Hpos1 Hq2]; subst; [reflexivity|].
    vm_compute in Hpos1. discriminate.
  - change (py "/ax/b[2]/c") with (PyStr.replace (py "/a/b[2]/c") (py "/a") (py "/ax")).
    apply (proj1 (proj2 (proj2 (replace_trans_lookup
             (with_table {[ py "/a" := py "/ax" ]}) (py "/a/b[2]/c")))));
      [discriminate| |reflexivity|].
    + apply lopped_back; [reflexivity|].
      apply lopped_back; [reflexivity|]. apply lopped_here.
    + intros q' Hq' Hlen.
      inversion Hq' as [|? ? Hpos Hq1]; subst; [reflexivity|].
      inversion Hq1 as [|? ? Hpos1 Hq2]; subst; [reflexivity|].
      inversion Hq2 as [|? ? Hpos2 Hq3]; subst; [vm_compute in Hlen; lia|].
      vm_compute in Hpos2. discriminate.
  - apply (proj2 (proj2 (proj2 (replace_trans_lookup
             (with_table {[ py "/a/b" := py "/ax/by" ]}) (py "/a/b"))))).
    reflexivity.
Defined.

(** The empty string is no raw structural path.  It is looked up as a key
    when the table is not empty, and [KeyError] is raised when it is
    missing.  The constructor only passes the empty string for the root,
    when the table is still empty. *)
Example replace_trans_empty_path :
  _replace_trans (with_table {[ py "/a" := py "/ax" ]}) [] = Raise (KeyError []).
Proof. reflexivity. Qed.

End replace_trans_claims.

(** ** The uniqueness fragment *)

Section fragment.
Import XMLUniquePath.
Implicit Types (self : XMLUniquePath.t) (elem : Element) (keys : list str).

Lemma attrib_get_Some a key v :
  attrib_get a key = Some v → (key, v) ∈ a.
Proof.
  induction a as [|[k w] a IH]; simpl; [done|].
  case_decide; subst.
  - intros [= ->]. by left.
  - intros ?. right. auto.
Qed.

Lemma attrib_get_None a key :
  attrib_get a key = None ↔ key ∉ a.*1.
Proof.
  induction a as [|[k w] a IH]; simpl.
  - split; [intros _; by apply not_elem_of_nil|done].
  - case_decide; subst.
    + split; [done|]. intros []. by left.
    + rewrite IH, not_elem_of_cons. simpl. intuition congruence.
Qed.

(** The scan over the preferred names: the first name, in the order of
    the list, that the element carries decides; later names are not
    looked at. *)
Lemma first_special_match keys1 key keys2 elem v :
  (∀ k, k ∈ keys1 → attrib_get (attrib elem) k = None) →
  attrib_get (attrib elem) key = Some v →
  first_special (keys1 ++ key :: keys2) elem = v.
Proof.
  intros Hnone Hsome. induction keys1 as [|k keys1 IH]; simpl.
  - by rewrite Hsome.
  - rewrite (Hnone k) by (by left). apply IH. intros k' ?. apply Hnone. by right.
Qed.

Lemma first_special_no_match keys elem :
  (∀ k, k ∈ keys → attrib_get (attrib elem) k = None) →
  first_special keys elem = [].
Proof.
  intros Hnone. induction keys as [|k keys IH]; simpl; [done|].
  rewrite (Hnone k) by (by left). apply IH. intros k' ?. apply Hnone. by right.
Qed.

(** A non-empty value of the first matching attribute is the fragment. *)
Lemma fragment_first_match self elem keys1 key keys2 v :
  _special_attribs self = keys1 ++ key :: keys2 →
  (∀ k, k ∈ keys1 → attrib_get (attrib elem) k = None) →
  attrib_get (attrib elem) key = Some v →
  v ≠ [] →
  fragment self elem = v.
Proof.
  intros Hkeys Hnone Hsome Hv. unfold fragment.
  rewrite Hkeys, (first_special_match _ _ _ _ v) by done.
  destruct (text elem); [|done]. rewrite decide_False; [done|]. by intros [? _].
Qed.

(** An empty value of the first matching attribute is taken for "no
    match": a non-empty text becomes the fragment. *)
Lemma fragment_first_match_empty self elem keys1 key keys2 s :
  _special_attribs self = keys1 ++ key :: keys2 →
  (∀ k, k ∈ keys1 → attrib_get (attrib elem) k = None) →
  attrib_get (attrib elem) key = Some [] →
  text elem = Some s → s ≠ [] →
  fragment self elem = s.
Proof.
  intros Hkeys Hnone Hsome Htext Hs. unfold fragment.
  rewrite Hkeys, (first_special_match _ _ _ _ []), Htext by done.
  rewrite decide_True; [done|]. split; [done|]. destruct s; simpl; [done|lia].
Qed.

(** No preferred attribute on the element: the non-empty text, or the
    empty string. *)
Lemma fragment_no_match self elem :
  (∀ k, k ∈ _special_attribs self → attrib_get (attrib elem) k = None) →
  fragment self elem =
    match text elem with
    | Some s => s
    | None => []
    end.
Proof.
  intros Hnone. unfold fragment. rewrite first_special_no_match by done.
  destruct (text elem) as [s|]; [|done].
  case_decide as H; [done|]. destruct s; [done|]. exfalso. apply H. simpl. split; [done|lia].
Qed.

(** C4 (the code departs from the claim): the element
    [<e name="">hello</e>] carries the preferred attribute [name], whose
    value is the empty string, and yet the text is consulted: the fragment
    is ['hello'], not the value of the matching attribute. *)
Theorem fragment_text_despite_match :
  attrib_get (attrib empty_name_elem) (py "name") = Some []
  ∧ first_special [py "name"] empty_name_elem = []
  ∧ fragment (configured [py "name"] 80) empty_name_elem = py "hello".
Proof. split_and!; reflexivity. Qed.

(** First match wins over later names, in the order of the preferred
    list and not of the element's attributes. *)
Example fragment_first_wins :
  fragment (configured [py "name"; py "id"] 80) two_attr_elem = py "n"
  ∧ fragment (configured [py "id"; py "name"] 80) two_attr_elem = py "7".
Proof. split; reflexivity. Qed.

End fragment.

(** ** Sanitising and truncating the fragment *)

Section truncation.
Import XMLUniquePath Lxml.
Implicit Types (self : XMLUniquePath.t) (elem : Element) (node : Node).

(** Replacing a character by nothing removes all its occurrences. *)
Lemma replace_char_removes c (s : str) :
  PyStr.replace s [c] [] = filter (λ a, a ≠ c) s.
Proof.
  unfold PyStr.replace. rewrite decide_False by done.
  induction s as [|a s IH]; [done|]. simpl.
  destruct (decide (a = c)) as [->|Hne].
  - rewrite decide_True by (apply prefix_cons, prefix_nil).
    rewrite filter_cons_False by (intros H; by apply H). by rewrite IH.
  - rewrite decide_False; last first.
    { intros Hp. by apply prefix_cons_inv_1 in Hp. }
    rewrite filter_cons_True by done. by rewrite IH.
Qed.

Lemma sanitize_filter (u : str) :
  sanitize u = filter (λ a, a ≠ slash) (filter (λ a, a ≠ newline) u).
Proof. unfold sanitize. by rewrite !replace_char_removes. Qed.

(** The sanitised fragment holds no newline and no path separator. *)
Lemma sanitize_clean (u : str) : (slash ∉ sanitize u) ∧ (newline ∉ sanitize u).
Proof.
  rewrite sanitize_filter. split; intros Hin.
  - apply list_elem_of_filter in Hin as [Hne _]. by apply Hne.
  - apply list_elem_of_filter in Hin as [_ Hin].
    apply list_elem_of_filter in Hin as [Hne _]. by apply Hne.
Qed.

Lemma sanitize_letters n : sanitize (replicate n "a"%char) = replicate n "a"%char.
Proof.
  rewrite sanitize_filter. induction n as [|n IH]; [done|]. simpl.
  rewrite filter_cons_True by done. rewrite filter_cons_True by done.
  by rewrite IH.
Qed.

Lemma limit_long self (u : str) :
  (1 ≤ _max_text_len self)%Z →
  (_max_text_len self < Z.of_nat (length u))%Z →
  limit self u = take (Z.to_nat (_max_text_len self - 1)) u.
Proof.
  intros ??. unfold limit. rewrite decide_True by done.
  apply slice_to_take. lia.
Qed.

Lemma limit_short self (u : str) :
  (Z.of_nat (length u) ≤ _max_text_len self)%Z → limit self u = u.
Proof. intros ?. unfold limit. rewrite decide_False; [done|lia]. Qed.

(** A visit records the synthetic path
    [parent_path + '/' + tag + unique_str] for the node's raw path. *)
Lemma visit_records self node parent_path :
  _replace_trans self (default [] (getparent node)) = Ok parent_path →
  ∃ self',
    visit self node = Ok self'
    ∧ _trans_table self' !! getpath node
      = Some (parent_path ++ slash :: tag (elem node) ++ unique_str self (elem node)).
Proof.
  intros Hparent. unfold visit. rewrite Hparent. simpl.
  eexists. split; [reflexivity|]. simpl. apply lookup_insert_eq.
Qed.

(** C7: for a maximum length [N ≥ 1], a sanitised fragment longer than
    [N] enters the synthetic path cut to its first [N - 1] characters. *)
Theorem fragment_truncated self node parent_path :
  (1 ≤ _max_text_len self)%Z →
  (_max_text_len self < Z.of_nat (length (sanitize (fragment self (elem node)))))%Z →
  _replace_trans self (default [] (getparent node)) = Ok parent_path →
  let kept := take (Z.to_nat (_max_text_len self - 1))
                (sanitize (fragment self (elem node))) in
  unique_str self (elem node) = kept
  ∧ Z.of_nat (length kept) = (_max_text_len self - 1)%Z
  ∧ ∃ self',
      visit self node = Ok self'
      ∧ _trans_table self' !! getpath node
        = Some (parent_path ++ slash :: tag (elem node) ++ kept).
Proof.
  intros HN Hlong Hparent kept.
  assert (unique_str self (elem node) = kept) as Hu
    by (by apply limit_long).
  split_and!; [done| |].
  - unfold kept. rewrite length_take. lia.
  - rewrite <- Hu. by apply visit_records.
Qed.

Lemma fragment_truncated_witness :
  unique_str (configured [] 3) (elem long_text_node) = py "ab"
  ∧ ∃ self',
      visit (configured [] 3) long_text_node = Ok self'
      ∧ _trans_table self' !! py "/e" = Some (py "/eab").
Proof.
  pose proof (fragment_truncated (configured [] 3) long_text_node []
    ltac:(vm_compute; discriminate) ltac:(vm_compute; reflexivity) eq_refl)
    as (Hu & _ & Hvisit).
  split; [exact Hu|exact Hvisit].
Defined.

(** C10: a sanitised fragment of at most [N] characters enters the
    synthetic path unchanged; for every [N ≥ 1] both a fragment of [N]
    characters (kept whole) and one of [N - 1] characters (what is left
    of [N + 1]) occur. *)
Theorem fragment_kept_whole :
  (∀ self node parent_path,
      (Z.of_nat (length (sanitize (fragment self (elem node)))) ≤ _max_text_len self)%Z →
      _replace_trans self (default [] (getparent node)) = Ok parent_path →
      unique_str self (elem node) = sanitize (fragment self (elem node))
      ∧ ∃ self',
          visit self node = Ok self'
          ∧ _trans_table self' !! getpath node
            = Some (parent_path ++ slash :: tag (elem node)
                      ++ sanitize (fragment self (elem node))))
  ∧ (∀ n : nat, 1 ≤ n →
      unique_str (configured [] (Z.of_nat n)) (letters_elem n) = replicate n "a"%char
      ∧ unique_str (configured [] (Z.of_nat n)) (letters_elem (S n))
        = replicate (n - 1) "a"%char).
Proof.
  split.
  - intros self node parent_path Hshort Hparent.
    assert (unique_str self (elem node) = sanitize (fragment self (elem node))) as Hu
      by (by apply limit_short).
    split; [done|]. rewrite <- Hu. by apply visit_records.
  - intros n Hn.
    assert (∀ m, 1 ≤ m →
      fragment (configured [] (Z.of_nat n)) (letters_elem m) = replicate m "a"%char)
      as Hfrag.
    { intros m Hm. unfold fragment. simpl.
      rewrite decide_True; [done|]. rewrite length_replicate. split; [done|lia]. }
    unfold unique_str. rewrite !Hfrag, !sanitize_letters by lia. split.
    + apply limit_short. simpl. rewrite length_replicate. lia.
    + rewrite limit_long by (simpl; rewrite ?length_replicate; lia).
      simpl _max_text_len. rewrite take_replicate. f_equal. lia.
Qed.

Lemma fragment_kept_whole_witness :
  (unique_str (configured [] 6) (elem long_text_node) = py "abcdef"
   ∧ ∃ self',
       visit (configured [] 6) long_text_node = Ok self'
       ∧ _trans_table self' !! py "/e" = Some (py "/eabcdef"))
  ∧ unique_str (configured [] 3) (letters_elem 3) = py "aaa"
  ∧ unique_str (configured [] 3) (letters_elem 4) = py "aa".
Proof.
  split.
  - exact (proj1 fragment_kept_whole (configured [] 6) long_text_node []
             ltac:(vm_compute; discriminate) eq_refl).
  - exact (proj2 fragment_kept_whole 3 ltac:(lia)).
Defined.

End truncation.

(** ** Equality and hash of wrappers *)

Section wrapped_element.
Import WrappedElement.
Implicit Types (x y z : WrappedElement.t).

Lemma __eq___spec x y :
  __eq__ x y = true ↔
  attrib_dict (attrib (element x)) = attrib_dict (attrib (element y))
  ∧ text (element x) = text (element y).
Proof.
  unfold __eq__. rewrite andb_true_iff, !bool_decide_eq_true. done.
Qed.

Lemma __eq___refl x : __eq__ x x = true.
Proof. by apply __eq___spec. Qed.

Lemma __eq___sym x y : __eq__ x y = true → __eq__ y x = true.
Proof. rewrite !__eq___spec. by intros [-> ->]. Qed.

Lemma __eq___trans x y z :
  __eq__ x y = true → __eq__ y z = true → __eq__ x z = true.
Proof. rewrite !__eq___spec. by intros [-> ->] [-> ->]. Qed.

(** The tag and the children play no part in the comparison. *)
Lemma __eq___ignores_tag tg tg' a tx cs cs' :
  __eq__ (Wrap (Elem tg a tx cs)) (Wrap (Elem tg' a tx cs')) = true.
Proof. by apply __eq___spec. Qed.

(** Wrappers whose attributes are stored in the same order and whose
    texts agree have the same hash. *)
Lemma __hash___same_order py_hash x y :
  attrib (element x) = attrib (element y) →
  text (element x) = text (element y) →
  __hash__ py_hash x = __hash__ py_hash y.
Proof. intros Ha Ht. unfold __hash__, hashed_tuple. by rewrite Ha, Ht. Qed.

(** C5 (the code departs from the claim): the wrappers of
    [<e a="1" b="2"/>] and [<e b="2" a="1"/>] are equal, but [__hash__]
    hashes two different tuples for them, so that equal wrappers do not
    have equal hashes whenever [hash] tells these tuples apart. *)
Theorem hash_depends_on_stored_order :
  __eq__ (Wrap elem_ab) (Wrap elem_ba) = true
  ∧ hashed_tuple (Wrap elem_ab) ≠ hashed_tuple (Wrap elem_ba)
  ∧ ¬ (∀ py_hash x y, __eq__ x y = true → __hash__ py_hash x = __hash__ py_hash y).
Proof.
  split_and!.
  - reflexivity.
  - discriminate.
  - intros Hall.
    specialize (Hall telling_hash (Wrap elem_ab) (Wrap elem_ba) eq_refl).
    vm_compute in Hall. discriminate.
Qed.

End wrapped_element.

(** ** Python sets of wrappers *)

Section py_set.
Variable py_hash : list WrappedElement.TupleItem → Z.
Implicit Types (x y : WrappedElement.t) (s l : list WrappedElement.t).

Local Abbreviation key := (member_key py_hash).
Local Abbreviation same_member := (PySet.same_member py_hash).
Local Abbreviation contains := (PySet.contains py_hash).
Local Abbreviation add := (PySet.add py_hash).
Local Abbreviation of_list := (PySet.of_list py_hash).

Lemma same_member_key x y : same_member x y = true ↔ key x = key y.
Proof.
  unfold PySet.same_member, member_key.
  rewrite andb_true_iff, bool_decide_eq_true, __eq___spec.
  split; [intros (-> & -> & ->); done|]. by intros [= -> -> ->].
Qed.

Lemma same_member_content x y :
  same_member x y = true ↔
  WrappedElement.__hash__ py_hash x = WrappedElement.__hash__ py_hash y
  ∧ content x = content y.
Proof.
  rewrite same_member_key. unfold member_key, content.
  split; [by intros [= -> -> ->]|]. by intros [-> [= -> ->]].
Qed.

Lemma contains_key s x : contains s x = true ↔ key x ∈ key <$> s.
Proof.
  unfold PySet.contains. rewrite existsb_exists, list_elem_of_fmap.
  split.
  - intros (y & Hy & Hsame). exists y. split; [|by apply list_elem_of_In].
    symmetry. by apply same_member_key.
  - intros (y & Hkey & Hy). exists y. split; [by apply list_elem_of_In|].
    by apply same_member_key.
Qed.

Lemma add_keys s x :
  NoDup (key <$> s) →
  NoDup (key <$> add s x) ∧ ∀ k, k ∈ key <$> add s x ↔ k ∈ key <$> s ∨ k = key x.
Proof.
  intros Hnd. unfold PySet.add.
  destruct (contains s x) eqn:Hc.
  - apply contains_key in Hc. split; [done|]. intros k. split; [by left|].
    by intros [?| ->].
  - assert (key x ∉ key <$> s) as Hnot.
    { intros Hin. apply contains_key in Hin. congruence. }
    rewrite fmap_app. simpl. split.
    + apply NoDup_app. split_and!; [done| |apply NoDup_singleton].
      intros k Hk ->%list_elem_of_singleton. done.
    + intros k. rewrite elem_of_app, list_elem_of_singleton. done.
Qed.

Lemma foldl_add_keys l s :
  NoDup (key <$> s) →
  NoDup (key <$> foldl add s l)
  ∧ ∀ k, k ∈ key <$> foldl add s l ↔ k ∈ key <$> s ∨ k ∈ key <$> l.
Proof.
  revert s. induction l as [|x l IH]; intros s Hnd; simpl.
  - split; [done|]. intros k. rewrite elem_of_nil. tauto.
  - destruct (add_keys s x Hnd) as [Hnd' Hk'].
    destruct (IH _ Hnd') as [Hnd'' Hk'']. split; [done|].
    intros k. rewrite Hk'', Hk', elem_of_cons. tauto.
Qed.

(** [set(l)] holds every member once. *)
Lemma of_list_NoDup l : NoDup (key <$> of_list l).
Proof. apply foldl_add_keys. simpl. constructor. Qed.

Lemma of_list_keys l k : k ∈ key <$> of_list l ↔ k ∈ key <$> l.
Proof.
  unfold PySet.of_list.
  destruct (foldl_add_keys l [] ltac:(simpl; constructor)) as [_ ->].
  simpl. rewrite elem_of_nil. tauto.
Qed.

Lemma eqb_keys s1 s2 :
  NoDup (key <$> s1) → NoDup (key <$> s2) →
  PySet.eqb py_hash s1 s2 = true ↔ (∀ k, k ∈ key <$> s1 ↔ k ∈ key <$> s2).
Proof.
  intros Hnd1 Hnd2. unfold PySet.eqb.
  rewrite andb_true_iff, bool_decide_eq_true, forallb_forall.
  split.
  - intros [Hlen Hsub].
    assert ((key <$> s1) ≡ₚ (key <$> s2)) as Hperm.
    { apply submseteq_length_Permutation; [|by rewrite !length_fmap, Hlen].
      apply NoDup_submseteq; [done|].
      intros k (x & -> & Hx)%list_elem_of_fmap.
      apply contains_key, Hsub. by apply list_elem_of_In. }
    intros k. by rewrite Hperm.
  - intros Hiff.
    assert ((key <$> s1) ≡ₚ (key <$> s2)) as Hperm by by apply NoDup_Permutation.
    split.
    + apply Permutation_length in Hperm. by rewrite !length_fmap in Hperm.
    + intros x Hx%list_elem_of_In. apply contains_key, Hiff.
      by apply list_elem_of_fmap_2.
Qed.

Lemma of_list_eqb_keys l1 l2 :
  PySet.eqb py_hash (of_list l1) (of_list l2) = true
  ↔ (∀ k, k ∈ key <$> l1 ↔ k ∈ key <$> l2).
Proof.
  rewrite eqb_keys by apply of_list_NoDup.
  split; intros H k; specialize (H k); by rewrite ?of_list_keys in *.
Qed.

Lemma same_set_keys l1 l2 :
  same_set py_hash l1 l2 ↔ (∀ k, k ∈ key <$> l1 ↔ k ∈ key <$> l2).
Proof.
  unfold same_set. split.
  - intros H k. split; intros (x & -> & Hx)%list_elem_of_fmap.
    + destruct (proj1 (H x)) as (y & Hy & Hs).
      { exists x. split; [done|]. by apply same_member_key. }
      apply same_member_key in Hs. rewrite <- Hs. by apply list_elem_of_fmap_2.
    + destruct (proj2 (H x)) as (y & Hy & Hs).
      { exists x. split; [done|]. by apply same_member_key. }
      apply same_member_key in Hs. rewrite <- Hs. by apply list_elem_of_fmap_2.
  - intros H x. split; intros (y & Hy & Hs); apply same_member_key in Hs.
    + assert (key x ∈ key <$> l2) as (z & Hz & Hin)%list_elem_of_fmap.
      { apply H. rewrite <- Hs. by apply list_elem_of_fmap_2. }
      exists z. split; [done|]. by apply same_member_key.
    + assert (key x ∈ key <$> l1) as (z & Hz & Hin)%list_elem_of_fmap.
      { apply H. rewrite <- Hs. by apply list_elem_of_fmap_2. }
      exists z. split; [done|]. by apply same_member_key.
Qed.

(** [set(l1) == set(l2)] decides whether the lists hold the same set. *)
Lemma of_list_eqb l1 l2 :
  PySet.eqb py_hash (of_list l1) (of_list l2) = true ↔ same_set py_hash l1 l2.
Proof. by rewrite of_list_eqb_keys, same_set_keys. Qed.

Lemma same_set_Permutation l1 l2 : l1 ≡ₚ l2 → same_set py_hash l1 l2.
Proof.
  intros Hp. apply same_set_keys. intros k. by rewrite Hp.
Qed.

End py_set.

(** ** The reconciliation [_compare] *)

Section compare.
Import XMLCompare.
Variable py_hash : list WrappedElement.TupleItem → Z.

(** A loop over a set of keys in which the step for [key] either stores
    [f key] under [key] or leaves the dictionary alone. *)
Lemma set_fold_entries {V} (f : str → option V)
    (step : str → gmap str V → gmap str V) (X : gset str) (d : gmap str V) :
  (∀ key d', step key d' = match f key with Some v => <[key := v]> d' | None => d' end) →
  ∀ k, set_fold step d X !! k =
       if decide (k ∈ X)
       then match f k with Some v => Some v | None => d !! k end
       else d !! k.
Proof.
  intros Hstep k. revert X.
  apply (set_fold_ind_L (λ acc Y, acc !! k =
    if decide (k ∈ Y) then match f k with Some v => Some v | None => d !! k end
    else d !! k)).
  - rewrite decide_False by set_solver. done.
  - intros x Y acc Hx IH. rewrite Hstep.
    destruct (decide (k = x)) as [->|Hne].
    + rewrite decide_True by set_solver.
      destruct (f x) as [v|]; [by rewrite lookup_insert_eq|].
      rewrite IH. by rewrite decide_False.
    + assert (acc !! k = match f x with Some v => <[x := v]> acc | None => acc end !! k)
        as <- by (destruct (f x); [by rewrite lookup_insert_ne|done]).
      rewrite IH. destruct (decide (k ∈ Y)).
      * rewrite decide_True; [done|]. apply elem_of_union. by right.
      * rewrite decide_False; [done|].
        rewrite elem_of_union, elem_of_singleton. tauto.
Qed.

(** The entry of every key after [_compare], started on an empty report. *)
Lemma _compare_lookup (self : XMLCompare.t) (k : str) :
  diff_items self = ∅ →
  diff_items (_compare py_hash self) !! k =
    match XMLUniquePath.paths (_paths1 self) !! k,
          XMLUniquePath.paths (_paths2 self) !! k with
    | Some l1, None => Some {| root1 := Some l1; root2 := None |}
    | None, Some l2 => Some {| root1 := None; root2 := Some l2 |}
    | Some l1, Some l2 =>
        if PySet.eqb py_hash (PySet.of_list py_hash l1) (PySet.of_list py_hash l2)
        then None
        else Some {| root1 := Some l1; root2 := Some l2 |}
    | None, None => None
    end.
Proof.
  intros Hempty. unfold _compare. simpl.
  set (p1 := XMLUniquePath.paths (_paths1 self)).
  set (p2 := XMLUniquePath.paths (_paths2 self)).
  rewrite (set_fold_entries
    (λ key, if PySet.eqb py_hash (PySet.of_list py_hash (p1 !!! key))
                 (PySet.of_list py_hash (p2 !!! key))
            then None
            else Some {| root1 := Some (p1 !!! key); root2 := Some (p2 !!! key) |}))
    by (intros key d'; by destruct (PySet.eqb _ _ _)).
  rewrite (set_fold_entries
    (λ key, Some {| root1 := None; root2 := Some (p2 !!! key) |})) by done.
  rewrite (set_fold_entries
    (λ key, Some {| root1 := Some (p1 !!! key); root2 := None |})) by done.
  rewrite Hempty, lookup_empty.
  rewrite !lookup_total_alt.
  destruct (p1 !! k) as [l1|] eqn:H1; destruct (p2 !! k) as [l2|] eqn:H2; simpl.
  - rewrite decide_True by (rewrite elem_of_intersection, !elem_of_dom; eauto).
    destruct (PySet.eqb _ _ _); [|done].
    rewrite decide_False by (rewrite elem_of_difference, !elem_of_dom; intros [_ []]; eauto).
    rewrite decide_False by (rewrite elem_of_difference, !elem_of_dom; intros [_ []]; eauto).
    done.
  - rewrite decide_False
      by (rewrite elem_of_intersection, !elem_of_dom, H2; intros [_ []]; done).
    rewrite decide_False
      by (rewrite elem_of_difference, !elem_of_dom, H2; intros [[] _]; done).
    rewrite decide_True; [done|].
    rewrite elem_of_difference, !elem_of_dom, H1, H2. split; [eauto|]. by intros [].
  - rewrite decide_False
      by (rewrite elem_of_intersection, !elem_of_dom, H1; intros [[] _]; done).
    rewrite decide_True; [done|].
    rewrite elem_of_difference, !elem_of_dom, H1, H2. split; [eauto|]. by intros [].
  - rewrite decide_False
      by (rewrite elem_of_intersection, !elem_of_dom, H1; intros [[] _]; done).
    rewrite decide_False
      by (rewrite elem_of_difference, !elem_of_dom, H2; intros [[] _]; done).
    rewrite decide_False; [done|].
    rewrite elem_of_difference, !elem_of_dom, H1. intros [[] _]. done.
Qed.

Lemma _compare_paths (self : XMLCompare.t) :
  _paths1 (_compare py_hash self) = _paths1 self
  ∧ _paths2 (_compare py_hash self) = _paths2 self.
Proof. done. Qed.

End compare.

(** ** Building the path map *)

Section path_tree.
Import XMLUniquePath Lxml.
Implicit Types (self : XMLUniquePath.t) (e c : Element) (cs : list Element).

(** Induction over a tree, with the property known of all children. *)
Lemma Element_children_ind (P : Element → Prop) :
  (∀ tg a tx cs, Forall P cs → P (Elem tg a tx cs)) → ∀ e, P e.
Proof.
  intros Hnode. fix IH 1. intros [tg a tx cs]. apply Hnode.
  induction cs as [|c cs IHcs]; constructor; [apply IH|exact IHcs].
Qed.

Lemma iter_from_unfold par p e :
  iter_from par p e =
  {| elem := e; getpath := p; getparent := par |} :: iter_siblings p [] (children e).
Proof.
  destruct e as [tg a tx cs]. simpl. f_equal.
  match goal with
  | |- ?siblings [] cs = _ =>
      enough (∀ before, siblings before cs = iter_siblings p before cs) as H by apply H
  end.
  induction cs as [|c cs IH]; intros before; simpl; [done|].
  by rewrite IH.
Qed.

Lemma for_each_app {A S} (body : S → A → result S) l1 l2 s :
  for_each body (l1 ++ l2) s = (s' ← for_each body l1 s; for_each body l2 s').
Proof.
  revert s. induction l1 as [|a l1 IH]; intros s; simpl; [done|].
  destruct (body s a) as [s1|err]; simpl; [apply IH|done].
Qed.

Lemma step_length before c rest : 0 < length (step before c rest).
Proof. unfold step. case_decide; simpl; lia. Qed.

Lemma same_config_refl self : same_config self self.
Proof. done. Qed.

Lemma same_config_trans self1 self2 self3 :
  same_config self1 self2 → same_config self2 self3 → same_config self1 self3.
Proof. unfold same_config. intros (-> & ->) (-> & ->). done. Qed.

Lemma unique_str_config self self' e :
  same_config self self' → unique_str self' e = unique_str self e.
Proof.
  intros (Hs & Hm). unfold unique_str, limit, fragment. by rewrite Hs, Hm.
Qed.

Lemma synth_config self self' parent_path e :
  same_config self self' → synth self' parent_path e = synth self parent_path e.
Proof.
  intros Hc. revert parent_path.
  induction e as [tg a tx cs IH] using Element_children_ind. intros parent_path.
  simpl. rewrite (unique_str_config self self') by done. f_equal.
  generalize (parent_path ++ slash :: tg ++ unique_str self (Elem tg a tx cs)).
  intros path.
  induction IH as [|c cs Hc' _ IHcs]; simpl; [done|]. by rewrite Hc', IHcs.
Qed.

Lemma collect_app l1 l2 paths : collect (l1 ++ l2) paths = collect l2 (collect l1 paths).
Proof. apply foldl_app. Qed.

(** Raw structural paths only grow along the tree, and none is empty. *)
Lemma iter_from_getpath_length e :
  ∀ par p n, n ∈ iter_from par p e → length p ≤ length (getpath n).
Proof.
  induction e as [tg a tx cs IH] using Element_children_ind.
  intros par p n. rewrite iter_from_unfold. simpl children.
  intros [->|Hin]%elem_of_cons; [done|].
  revert Hin. generalize (@nil Element).
  induction IH as [|c cs Hc _ IHcs]; intros before Hin; simpl in Hin.
  { by apply elem_of_nil in Hin. }
  apply elem_of_app in Hin as [Hin|Hin]; [|by eapply IHcs].
  apply Hc in Hin. rewrite length_app in Hin. lia.
Qed.

Lemma getpath_nonempty root n : n ∈ iter root → getpath n ≠ [].
Proof.
  intros Hin%iter_from_getpath_length Hnil. rewrite Hnil in Hin. simpl in Hin. lia.
Qed.

(** [getpath] numbers the siblings that share a tag, from 1, and leaves a
    tag that occurs once without a number. *)
Example getpath_of_items :
  getpath <$> iter doc_xy
  = [py "/Root"; py "/Root/Item[1]"; py "/Root/Item[1]/V";
     py "/Root/Item[2]"; py "/Root/Item[2]/V"].
Proof. vm_compute. reflexivity. Qed.

(** One visit: the wrapper is appended under the synthetic path, and the
    synthetic path is recorded for the raw path. *)
Lemma visit_spec self node parent_path :
  _replace_trans self (default [] (getparent node)) = Ok parent_path →
  let path := parent_path ++ slash :: tag (elem node) ++ unique_str self (elem node) in
  ∃ self',
    visit self node = Ok self'
    ∧ same_config self self'
    ∧ paths self' = record_path (paths self) (path, WrappedElement.Wrap (elem node))
    ∧ _trans_table self' = <[getpath node := path]> (_trans_table self).
Proof.
  intros Hparent path. unfold visit. rewrite Hparent. simpl.
  eexists. split; [reflexivity|]. split_and!; try done.
Qed.

(** The children of a node whose raw path [p] is translated to [path]. *)
Lemma visit_children cs :
  Forall subtree_visited cs →
  ∀ self p path before self2,
    same_config self self2 →
    _trans_table self2 !! p = Some path →
    ∃ self',
      for_each visit (iter_siblings p before cs) self2 = Ok self'
      ∧ same_config self self'
      ∧ paths self' = collect (flat_map (synth self path) cs) (paths self2)
      ∧ (∀ q, length q ≤ length p → _trans_table self' !! q = _trans_table self2 !! q).
Proof.
  induction 1 as [|c cs Hc _ IHcs]; intros self p path before self2 Hc2 Hp.
  { exists self2. by split_and!. }
  simpl iter_siblings. rewrite for_each_app.
  destruct (Hc (Some p) (p ++ step before c cs) self2 path) as
    (self3 & Hrun3 & Hc3 & Hpaths3 & Htable3 & _).
  { simpl. by apply _replace_trans_exact. }
  rewrite Hrun3. simpl.
  pose proof (step_length before c cs) as Hstep.
  assert (∀ q, length q ≤ length p → _trans_table self3 !! q = _trans_table self2 !! q)
    as Hkeep3.
  { intros q Hq. apply Htable3. rewrite length_app. lia. }
  destruct (IHcs self p path (before ++ [c]) self3) as (self4 & Hrun4 & Hc4 & Hpaths4 & Htable4).
  { by eapply same_config_trans. }
  { by rewrite Hkeep3. }
  exists self4. split_and!; [done|done| |].
  - rewrite Hpaths4, Hpaths3. simpl flat_map. rewrite collect_app.
    by rewrite (synth_config self self2).
  - intros q Hq. by rewrite Htable4, Hkeep3.
Qed.

Lemma visit_subtree e : subtree_visited e.
Proof.
  induction e as [tg a tx cs IH] using Element_children_ind.
  intros par p self parent_path Hparent.
  rewrite iter_from_unfold. simpl children.
  destruct (visit_spec self {| elem := Elem tg a tx cs; getpath := p; getparent := par |}
              parent_path Hparent) as (self1 & Hvisit & Hc1 & Hpaths1 & Htable1).
  simpl in Hpaths1, Htable1.
  simpl for_each. rewrite Hvisit. simpl.
  destruct (visit_children cs IH self p
              (parent_path ++ slash :: tg ++ unique_str self (Elem tg a tx cs)) [] self1 Hc1)
    as (self' & Hrun & Hc' & Hpaths' & Htable').
  { rewrite Htable1. apply lookup_insert_eq. }
  exists self'. split_and!; [done|done| | |].
  - rewrite Hpaths', Hpaths1. done.
  - intros q Hq. rewrite Htable' by lia. rewrite Htable1.
    apply lookup_insert_ne. intros ->. lia.
  - rewrite Htable' by lia. rewrite Htable1. apply lookup_insert_eq.
Qed.

(** The constructor never raises, and its path map is the one of the
    specification. *)
Lemma __init___spec (root : Element) (special_attribs : list str) (max_text_len : Z) :
  ∃ self,
    XMLUniquePath.__init__ root special_attribs max_text_len = Ok self
    ∧ same_config (configured special_attribs max_text_len) self
    ∧ paths self = collect (synth (configured special_attribs max_text_len) [] root) ∅.
Proof.
  unfold XMLUniquePath.__init__, _create_path_tree, iter. simpl.
  set (self0 := {| XMLUniquePath.root := root; _special_attribs := special_attribs;
                   _max_text_len := max_text_len; paths := ∅; _trans_table := ∅ |}).
  destruct (visit_subtree root None (slash :: tag root) self0 [])
    as (self & Hrun & (Hs & Hm) & Hpaths & _).
  { by apply _replace_trans_empty_table. }
  exists self. split_and!; try done.
  rewrite Hpaths. simpl.
  by rewrite (synth_config (configured special_attribs max_text_len) self0).
Qed.

End path_tree.

(** ** The path map as a grouping of the nodes by synthetic path *)

Section grouping.
Import XMLUniquePath Lxml.
Implicit Types (l : list (str * WrappedElement.t)) (k : str)
  (paths : gmap str (list WrappedElement.t)).

Lemma wrappers_at_cons_eq k w l : wrappers_at k ((k, w) :: l) = w :: wrappers_at k l.
Proof. unfold wrappers_at. by rewrite filter_cons_True. Qed.

Lemma wrappers_at_cons_ne k k' w l : k' ≠ k → wrappers_at k ((k', w) :: l) = wrappers_at k l.
Proof. intros ?. unfold wrappers_at. by rewrite filter_cons_False. Qed.

Lemma wrappers_at_nil_iff k l : wrappers_at k l = [] ↔ k ∉ l.*1.
Proof.
  induction l as [|[k' w] l IH]; simpl.
  - split; [intros _; apply not_elem_of_nil|done].
  - destruct (decide (k' = k)) as [->|Hne].
    + rewrite wrappers_at_cons_eq. split; [done|]. intros []. by left.
    + rewrite wrappers_at_cons_ne, IH, not_elem_of_cons by done. simpl.
      intuition congruence.
Qed.

Lemma record_path_lookup paths k' w k :
  record_path paths (k', w) !! k =
  if decide (k' = k) then Some (default [] (paths !! k) ++ [w]) else paths !! k.
Proof.
  unfold record_path. simpl. case_decide as Hk.
  - subst. destruct (paths !! k); by rewrite lookup_insert_eq.
  - destruct (paths !! k'); by rewrite lookup_insert_ne.
Qed.

(** The list under a key after a run: what was there, then the wrappers
    of the nodes with that synthetic path, in document order. *)
Lemma collect_lookup l paths k :
  collect l paths !! k =
  match paths !! k with
  | Some l0 => Some (l0 ++ wrappers_at k l)
  | None => match wrappers_at k l with [] => None | ws => Some ws end
  end.
Proof.
  revert paths. induction l as [|[k' w] l IH]; intros paths.
  - simpl. destruct (paths !! k); [by rewrite app_nil_r|done].
  - unfold collect in *. simpl foldl. rewrite IH, record_path_lookup.
    case_decide as Hk.
    + subst. rewrite wrappers_at_cons_eq.
      destruct (paths !! k); simpl; by rewrite <- ?app_assoc.
    + rewrite wrappers_at_cons_ne by done. done.
Qed.

Lemma collect_empty_lookup l k :
  collect l ∅ !! k = match wrappers_at k l with [] => None | ws => Some ws end.
Proof. by rewrite collect_lookup, lookup_empty. Qed.

Lemma collect_empty_total l k : collect l ∅ !!! k = wrappers_at k l.
Proof.
  rewrite lookup_total_alt, collect_empty_lookup. by destruct (wrappers_at k l).
Qed.

Lemma collect_empty_dom l k : k ∈ dom (collect l ∅) ↔ k ∈ l.*1.
Proof.
  rewrite elem_of_dom, collect_empty_lookup.
  destruct (wrappers_at k l) as [|w ws] eqn:Hw.
  - apply wrappers_at_nil_iff in Hw. split; [by intros [? ?]|done].
  - split; [|by eauto]. intros _.
    destruct (decide (k ∈ l.*1)) as [|Hn]; [done|].
    apply wrappers_at_nil_iff in Hn. congruence.
Qed.

(** The specification's list of synthetic paths has one entry per node of
    the traversal, in the same order. *)
Lemma synth_nodes self e :
  ∀ parent_path par p,
    (synth self parent_path e).*2
    = (λ n, WrappedElement.Wrap (elem n)) <$> iter_from par p e.
Proof.
  induction e as [tg a tx cs IH] using Element_children_ind.
  intros parent_path par p. rewrite iter_from_unfold. simpl. f_equal.
  generalize (parent_path ++ slash :: tg ++ unique_str self (Elem tg a tx cs)).
  generalize (@nil Element).
  induction IH as [|c cs Hc _ IHcs]; intros before path; simpl; [done|].
  rewrite !fmap_app. f_equal; [apply Hc|apply IHcs].
Qed.

(** C9: the constructor raises no error, whatever nodes share a synthetic
    path; the list under every key holds exactly the wrappers of the nodes
    with that synthetic path, one per node, so that its length is their
    number; and the keys are the synthetic paths of the nodes. *)
Theorem path_map_counts_nodes (root : Element) (special_attribs : list str)
    (max_text_len : Z) :
  let nodes := synth (configured special_attribs max_text_len) [] root in
  nodes.*2 = (λ n, WrappedElement.Wrap (elem n)) <$> iter root
  ∧ ∃ self,
      XMLUniquePath.__init__ root special_attribs max_text_len = Ok self
      ∧ (∀ k, paths self !!! k = wrappers_at k nodes)
      ∧ (∀ k, length (paths self !!! k) = length (filter (λ kw, kw.1 = k) nodes))
      ∧ (∀ k, k ∈ dom (paths self) ↔ k ∈ nodes.*1).
Proof.
  intros nodes. split; [apply synth_nodes|].
  destruct (__init___spec root special_attribs max_text_len) as (self & Hinit & _ & Hpaths).
  exists self. split_and!; [done| | |].
  - intros k. rewrite Hpaths. apply collect_empty_total.
  - intros k. rewrite Hpaths, collect_empty_total. unfold wrappers_at.
    by rewrite length_fmap.
  - intros k. rewrite Hpaths. apply collect_empty_dom.
Qed.

(** The last scenario of the specification: with no preferred attribute
    and no text, the two [<a/>] children share the path ['/r/a'], whose list
    has length 2. *)
Example twins_share_a_path :
  ∃ self,
    XMLUniquePath.__init__ twins_doc [] 80 = Ok self
    ∧ length (paths self !!! py "/r/a") = 2.
Proof. eexists. split; [reflexivity|]. vm_compute. reflexivity. Qed.

End grouping.

(** ** The diff report *)

Section diff_report.
Import XMLCompare.
Variable py_hash : list WrappedElement.TupleItem → Z.

Lemma the_same_empty (self : XMLCompare.t) :
  the_same self = true ↔ diff_items self = ∅.
Proof.
  unfold the_same. rewrite bool_decide_eq_true. apply map_size_empty_iff.
Qed.

(** Building the comparison never raises; it holds the two path maps of
    [XMLUniquePath] and the report of [_compare] on them. *)
Lemma XMLCompare_init_spec (root1 root2 : Element) (special_attribs : list str)
    (max_text_len : Z) :
  ∃ paths1 paths2,
    XMLUniquePath.__init__ root1 special_attribs max_text_len = Ok paths1
    ∧ XMLUniquePath.__init__ root2 special_attribs max_text_len = Ok paths2
    ∧ XMLCompare.__init__ py_hash root1 root2 special_attribs max_text_len
      = Ok (_compare py_hash {| diff_items := ∅; _paths1 := paths1; _paths2 := paths2 |}).
Proof.
  destruct (__init___spec root1 special_attribs max_text_len) as (paths1 & H1 & _).
  destruct (__init___spec root2 special_attribs max_text_len) as (paths2 & H2 & _).
  exists paths1, paths2. split_and!; [done|done|].
  unfold XMLCompare.__init__. rewrite H1, H2. done.
Qed.

(** C2: for every pair of trees the comparison is built, and [the_same]
    holds exactly when [diff_items] is the empty mapping. *)
Theorem the_same_iff_no_diff (root1 root2 : Element) (special_attribs : list str)
    (max_text_len : Z) :
  ∃ self,
    XMLCompare.__init__ py_hash root1 root2 special_attribs max_text_len = Ok self
    ∧ (the_same self = true ↔ diff_items self = ∅)
    ∧ (the_same self = false ↔ ∃ k entry, diff_items self !! k = Some entry).
Proof.
  destruct (XMLCompare_init_spec root1 root2 special_attribs max_text_len)
    as (paths1 & paths2 & _ & _ & Hinit).
  eexists. split; [exact Hinit|]. split; [apply the_same_empty|].
  rewrite <- not_true_iff_false, the_same_empty. split.
  - intros Hne. apply map_choose in Hne as (k & entry & Hk). eauto.
  - intros (k & entry & Hk) Hempty. rewrite Hempty in Hk. by rewrite lookup_empty in Hk.
Qed.

(** The partition of the keys as the code computes it, with the shared
    keys told apart by Python's set comparison (members by hash and
    [__eq__]): the keys of the report are the keys of one map only,
    together with the shared keys under which the two lists do not hold the
    same Python set; a key of document 1 only carries the list of document
    1 alone, a key of document 2 only the list of document 2 alone, and a
    shared key with different sets carries both lists. *)
Theorem diff_keys_partition (root1 root2 : Element) (special_attribs : list str)
    (max_text_len : Z) :
  ∃ self paths1 paths2,
    XMLUniquePath.__init__ root1 special_attribs max_text_len = Ok paths1
    ∧ XMLUniquePath.__init__ root2 special_attribs max_text_len = Ok paths2
    ∧ XMLCompare.__init__ py_hash root1 root2 special_attribs max_text_len = Ok self
    ∧ let map1 := XMLUniquePath.paths paths1 in
      let map2 := XMLUniquePath.paths paths2 in
      (∀ k, k ∈ dom (diff_items self) ↔
            (k ∈ dom map1 ∧ k ∉ dom map2)
            ∨ (k ∈ dom map2 ∧ k ∉ dom map1)
            ∨ (k ∈ dom map1 ∧ k ∈ dom map2
               ∧ ¬ same_set py_hash (map1 !!! k) (map2 !!! k)))
      ∧ (∀ k, k ∈ dom map1 → k ∉ dom map2 →
              diff_items self !! k
              = Some {| root1 := Some (map1 !!! k); root2 := None |})
      ∧ (∀ k, k ∈ dom map2 → k ∉ dom map1 →
              diff_items self !! k
              = Some {| root1 := None; root2 := Some (map2 !!! k) |})
      ∧ (∀ k, k ∈ dom map1 → k ∈ dom map2 →
              ¬ same_set py_hash (map1 !!! k) (map2 !!! k) →
              diff_items self !! k
              = Some {| root1 := Some (map1 !!! k); root2 := Some (map2 !!! k) |}).
Proof.
  destruct (XMLCompare_init_spec root1 root2 special_attribs max_text_len)
    as (paths1 & paths2 & H1 & H2 & Hinit).
  eexists _, paths1, paths2. split_and!; [done|done|exact Hinit|].
  intros map1 map2.
  set (self0 := {| diff_items := ∅; _paths1 := paths1; _paths2 := paths2 |}).
  assert (∀ k, diff_items (_compare py_hash self0) !! k =
    match map1 !! k, map2 !! k with
    | Some l1, None => Some {| root1 := Some l1; root2 := None |}
    | None, Some l2 => Some {| root1 := None; root2 := Some l2 |}
    | Some l1, Some l2 =>
        if PySet.eqb py_hash (PySet.of_list py_hash l1) (PySet.of_list py_hash l2)
        then None
        else Some {| root1 := Some l1; root2 := Some l2 |}
    | None, None => None
    end) as Hlookup by (intros k; by apply _compare_lookup).
  split_and!.
  - intros k. rewrite !elem_of_dom, Hlookup, !lookup_total_alt.
    destruct (map1 !! k) as [l1|], (map2 !! k) as [l2|]; simpl.
    + destruct (PySet.eqb _ _ _) eqn:Heq.
      * apply of_list_eqb in Heq. split; [by intros [? ?]|].
        intros [[_ []]|[[_ []]|(_ & _ & Hne)]]; eauto. done.
      * split; [|by eauto]. intros _. right. right. split_and!; [by eauto..|].
        intros Hs%of_list_eqb. congruence.
    + split; [|by eauto]. intros _. left. split; [by eauto|]. by intros [? ?].
    + split; [|by eauto]. intros _. right. left. split; [by eauto|]. by intros [? ?].
    + split; [by intros [? ?]|].
      intros [[[? ?] _]|[[[? ?] _]|([? ?] & _)]]; done.
  - intros k [l1 Hl1]%elem_of_dom Hn2%not_elem_of_dom.
    by rewrite Hlookup, lookup_total_alt, Hl1, Hn2.
  - intros k [l2 Hl2]%elem_of_dom Hn1%not_elem_of_dom.
    by rewrite Hlookup, lookup_total_alt, Hl2, Hn1.
  - intros k [l1 Hl1]%elem_of_dom [l2 Hl2]%elem_of_dom Hne.
    rewrite Hlookup, !lookup_total_alt. rewrite !lookup_total_alt, Hl1, Hl2 in Hne.
    rewrite Hl1, Hl2. simpl in *.
    destruct (PySet.eqb _ _ _) eqn:Heq; [|done].
    apply of_list_eqb in Heq. done.
Qed.

End diff_report.

(** ** Lists with the same content under a shared key *)

Section set_collapse.
Import XMLCompare.
Variable py_hash : list WrappedElement.TupleItem → Z.

Lemma member_key_stored (x y : WrappedElement.t) :
  stored x = stored y → member_key py_hash x = member_key py_hash y.
Proof.
  unfold stored, member_key. intros [= Ha Ht].
  unfold WrappedElement.__hash__, WrappedElement.hashed_tuple. by rewrite Ha, Ht.
Qed.

Lemma member_key_stored_fmap (l : list WrappedElement.t) :
  member_key py_hash <$> l
  = (λ s : list (str * str) * option str,
       (py_hash (((λ kv, WrappedElement.Pair kv.1 kv.2) <$> s.1)
                 ++ [match s.2 with
                     | Some t => WrappedElement.Text t
                     | None => WrappedElement.PyNone
                     end]),
        attrib_dict s.1, s.2)) <$> (stored <$> l).
Proof. rewrite <- list_fmap_compose. by apply list_fmap_ext. Qed.

(** Lists that store the same attribute lists and texts, in whatever order
    and number, hold the same set. *)
Lemma same_stored_same_set (l1 l2 : list WrappedElement.t) :
  (∀ s, s ∈ stored <$> l1 ↔ s ∈ stored <$> l2) → same_set py_hash l1 l2.
Proof.
  intros Hs. apply same_set_keys. intros k.
  rewrite !member_key_stored_fmap.
  split; intros (s & -> & Hin)%list_elem_of_fmap;
    apply list_elem_of_fmap; exists s; (split; [done|by apply Hs]).
Qed.

(** No entry is recorded under a shared key whose two lists hold the same
    set. *)
Lemma no_entry_for_same_set (self : XMLCompare.t) (k : str) l1 l2 :
  diff_items self = ∅ →
  XMLUniquePath.paths (_paths1 self) !! k = Some l1 →
  XMLUniquePath.paths (_paths2 self) !! k = Some l2 →
  same_set py_hash l1 l2 →
  diff_items (_compare py_hash self) !! k = None.
Proof.
  intros Hempty H1 H2 Hs. rewrite _compare_lookup, H1, H2 by done.
  apply of_list_eqb in Hs. by rewrite Hs.
Qed.

(** Duplicates collapse: a list and the same list with one wrapper
    repeated hold the same set, whatever the hash. *)
Lemma same_set_duplicate (x : WrappedElement.t) (l : list WrappedElement.t) :
  same_set py_hash (x :: l) (x :: x :: l).
Proof.
  apply same_set_keys. intros k. rewrite !fmap_cons, !elem_of_cons. tauto.
Qed.

(** An entry is recorded under a shared key as soon as one list has a
    wrapper without a counterpart, as a set member, in the other. *)
Lemma entry_for_different_sets (self : XMLCompare.t) (k : str) l1 l2 :
  diff_items self = ∅ →
  XMLUniquePath.paths (_paths1 self) !! k = Some l1 →
  XMLUniquePath.paths (_paths2 self) !! k = Some l2 →
  ¬ same_set py_hash l1 l2 →
  diff_items (_compare py_hash self) !! k
  = Some {| root1 := Some l1; root2 := Some l2 |}.
Proof.
  intros Hempty H1 H2 Hs. rewrite _compare_lookup, H1, H2 by done.
  destruct (PySet.eqb _ _ _) eqn:Heq; [|done]. by apply of_list_eqb in Heq.
Qed.

(** C6 (the code departs from the claim): the documents
    [<r><e a="1" b="2"/></r>] and [<r><e b="2" a="1"/></r>] share the key
    ['/r/e'], and the two lists under it have the same content (one wrapper
    each, with equal attribute mappings and texts).  As soon as [hash]
    tells the two tuples of [__hash__] apart, an entry with both lists is
    recorded under that key. *)
Theorem entry_despite_same_content :
  py_hash (WrappedElement.hashed_tuple (WrappedElement.Wrap elem_ab))
  ≠ py_hash (WrappedElement.hashed_tuple (WrappedElement.Wrap elem_ba)) →
  ∃ self,
    XMLCompare.__init__ py_hash doc_ab doc_ba [] 80 = Ok self
    ∧ XMLUniquePath.paths (_paths1 self) !! py "/r/e" = Some [WrappedElement.Wrap elem_ab]
    ∧ XMLUniquePath.paths (_paths2 self) !! py "/r/e" = Some [WrappedElement.Wrap elem_ba]
    ∧ content (WrappedElement.Wrap elem_ab) = content (WrappedElement.Wrap elem_ba)
    ∧ diff_items self !! py "/r/e"
      = Some {| root1 := Some [WrappedElement.Wrap elem_ab];
                root2 := Some [WrappedElement.Wrap elem_ba] |}
    ∧ the_same self = false.
Proof.
  intros Hhash.
  destruct (__init___spec doc_ab [] 80) as (paths1 & H1 & _ & Hp1).
  destruct (__init___spec doc_ba [] 80) as (paths2 & H2 & _ & Hp2).
  assert (XMLUniquePath.paths paths1 !! py "/r/e" = Some [WrappedElement.Wrap elem_ab])
    as Hl1 by (rewrite Hp1, collect_empty_lookup; vm_compute; reflexivity).
  assert (XMLUniquePath.paths paths2 !! py "/r/e" = Some [WrappedElement.Wrap elem_ba])
    as Hl2 by (rewrite Hp2, collect_empty_lookup; vm_compute; reflexivity).
  set (self0 := {| diff_items := ∅; _paths1 := paths1; _paths2 := paths2 |}).
  assert (diff_items (_compare py_hash self0) !! py "/r/e"
          = Some {| root1 := Some [WrappedElement.Wrap elem_ab];
                    root2 := Some [WrappedElement.Wrap elem_ba] |}) as Hentry.
  { apply entry_for_different_sets; [done|exact Hl1|exact Hl2|].
    intros Hs.
    pose proof (proj1 (same_set_keys py_hash _ _) Hs
                  (member_key py_hash (WrappedElement.Wrap elem_ab))) as Hk.
    rewrite !fmap_cons, !fmap_nil, !list_elem_of_singleton in Hk.
    pose proof (proj1 Hk eq_refl) as Hkey.
    unfold member_key in Hkey. injection Hkey as Hkey. by apply Hhash. }
  exists (_compare py_hash self0). split_and!.
  - unfold XMLCompare.__init__. by rewrite H1, H2.
  - exact Hl1.
  - exact Hl2.
  - vm_compute. reflexivity.
  - exact Hentry.
  - apply not_true_iff_false. rewrite the_same_empty. intros Hempty.
    rewrite Hempty in Hentry. by rewrite lookup_empty in Hentry.
Qed.

End set_collapse.

Lemma entry_despite_same_content_witness :
  telling_hash (WrappedElement.hashed_tuple (WrappedElement.Wrap elem_ab))
  ≠ telling_hash (WrappedElement.hashed_tuple (WrappedElement.Wrap elem_ba))
  ∧ ∃ self,
      XMLCompare.__init__ telling_hash doc_ab doc_ba [] 80 = Ok self
      ∧ XMLCompare.the_same self = false.
Proof.
  assert (telling_hash (WrappedElement.hashed_tuple (WrappedElement.Wrap elem_ab))
          ≠ telling_hash (WrappedElement.hashed_tuple (WrappedElement.Wrap elem_ba)))
    as Hhash by (vm_compute; discriminate).
  split; [exact Hhash|].
  destruct (entry_despite_same_content telling_hash Hhash)
    as (self & Hinit & _ & _ & _ & _ & Hsame).
  exists self. split; [exact Hinit|exact Hsame].
Defined.

(** ** Reordering siblings *)

Section reordering.
Import XMLUniquePath XMLCompare.
Implicit Types (self : XMLUniquePath.t) (e c : Element) (cs : list Element).

(** Induction over [reorder], with the property known of the children. *)
Lemma reorder_children_ind (P : Element → Element → Prop) :
  (∀ tg a tx cs cs' cs'',
      Forall2 reorder cs cs' → Forall2 P cs cs' → cs' ≡ₚ cs'' →
      P (Elem tg a tx cs) (Elem tg a tx cs'')) →
  ∀ e e', reorder e e' → P e e'.
Proof.
  intros Hnode. fix IH 3. intros e e' [tg a tx cs cs' cs'' Hcs Hperm].
  apply (Hnode tg a tx cs cs' cs''); [exact Hcs| |exact Hperm].
  clear Hperm. induction Hcs as [|c c' cs cs' Hc _ IHcs]; [constructor|].
  constructor; [apply IH, Hc|exact IHcs].
Qed.

Lemma reorder_refl e : reorder e e.
Proof.
  induction e as [tg a tx cs IH] using Element_children_ind.
  apply (reorder_children tg a tx cs cs cs); [|done].
  induction IH; by constructor.
Qed.

(** The fragment of a node does not depend on its children. *)
Lemma first_special_children keys tg a tx cs cs' :
  first_special keys (Elem tg a tx cs) = first_special keys (Elem tg a tx cs').
Proof. induction keys as [|key keys IH]; simpl; [done|]. by rewrite IH. Qed.

Lemma unique_str_children self tg a tx cs cs' :
  unique_str self (Elem tg a tx cs) = unique_str self (Elem tg a tx cs').
Proof.
  unfold unique_str, fragment. simpl.
  by rewrite (first_special_children _ tg a tx cs cs').
Qed.

Lemma synth_stored_reorder self e e' :
  reorder e e' →
  ∀ parent_path, synth_stored self parent_path e ≡ₚ synth_stored self parent_path e'.
Proof.
  induction 1 as [tg a tx cs cs' cs'' _ IH Hperm] using reorder_children_ind.
  intros parent_path. unfold synth_stored in *. simpl.
  rewrite (unique_str_children self tg a tx cs cs'').
  apply Permutation_skip.
  generalize (parent_path ++ slash :: tg ++ unique_str self (Elem tg a tx cs'')).
  intros path. trans (prod_map id stored <$> flat_map (synth self path) cs').
  - clear Hperm. induction IH as [|c c' cs cs' Hc _ IHcs]; simpl; [done|].
    rewrite !fmap_app. by apply Permutation_app.
  - apply fmap_Permutation. by apply Permutation_flat_map.
Qed.

Lemma wrappers_at_stored k (l : list (str * WrappedElement.t)) :
  stored <$> wrappers_at k l = (filter (λ ks, ks.1 = k) (prod_map id stored <$> l)).*2.
Proof.
  unfold wrappers_at. induction l as [|[k' w] l IH]; [done|].
  rewrite fmap_cons. destruct (decide (k' = k)) as [->|Hne].
  - rewrite !filter_cons_True by done. rewrite !fmap_cons. by rewrite IH.
  - rewrite !filter_cons_False by done. done.
Qed.

Lemma keys_stored (l : list (str * WrappedElement.t)) :
  l.*1 = (prod_map id stored <$> l).*1.
Proof. rewrite <- list_fmap_compose. by apply list_fmap_ext; intros ? []. Qed.

(** C3: permuting the children of any nodes of a tree changes neither the
    keys of the path map nor, under any key, the contents of the wrappers
    (they are the same up to their order in the list), and comparing the
    tree with the reordered tree gives an empty report.  This holds
    whether or not the heuristic tells the permuted siblings apart. *)
Theorem reorder_invisible (py_hash : list WrappedElement.TupleItem → Z)
    (root root' : Element) (special_attribs : list str) (max_text_len : Z) :
  reorder root root' →
  ∃ paths1 paths2 (self : XMLCompare.t),
    XMLUniquePath.__init__ root special_attribs max_text_len = Ok paths1
    ∧ XMLUniquePath.__init__ root' special_attribs max_text_len = Ok paths2
    ∧ dom (paths paths1) = dom (paths paths2)
    ∧ (∀ k, stored <$> (paths paths1 !!! k) ≡ₚ stored <$> (paths paths2 !!! k))
    ∧ (∀ k x, x ∈ content <$> (paths paths1 !!! k) ↔ x ∈ content <$> (paths paths2 !!! k))
    ∧ XMLCompare.__init__ py_hash root root' special_attribs max_text_len = Ok self
    ∧ diff_items self = ∅
    ∧ the_same self = true.
Proof.
  intros Hre.
  destruct (__init___spec root special_attribs max_text_len) as (paths1 & H1 & _ & Hp1).
  destruct (__init___spec root' special_attribs max_text_len) as (paths2 & H2 & _ & Hp2).
  pose proof (synth_stored_reorder (configured special_attribs max_text_len)
                root root' Hre []) as Hperm.
  unfold synth_stored in Hperm.
  set (l1 := synth (configured special_attribs max_text_len) [] root) in *.
  set (l2 := synth (configured special_attribs max_text_len) [] root') in *.
  assert (∀ k, stored <$> (paths paths1 !!! k) ≡ₚ stored <$> (paths paths2 !!! k))
    as Hstored.
  { intros k. rewrite Hp1, Hp2, !collect_empty_total, !wrappers_at_stored.
    by rewrite Hperm. }
  assert (∀ k, k ∈ dom (paths paths1) ↔ k ∈ dom (paths paths2)) as Hdom.
  { intros k. rewrite Hp1, Hp2, !collect_empty_dom, !keys_stored. by rewrite Hperm. }
  set (self0 := {| diff_items := ∅; _paths1 := paths1; _paths2 := paths2 |}).
  assert (diff_items (_compare py_hash self0) = ∅) as Hempty.
  { apply map_eq. intros k. rewrite lookup_empty, _compare_lookup by done. simpl.
    specialize (Hdom k). rewrite !elem_of_dom in Hdom.
    specialize (Hstored k). rewrite !lookup_total_alt in Hstored.
    destruct (paths paths1 !! k) as [w1|] eqn:E1, (paths paths2 !! k) as [w2|] eqn:E2;
      simpl in *.
    - assert (same_set py_hash w1 w2) as Hs%of_list_eqb.
      { apply same_stored_same_set. intros s. by rewrite Hstored. }
      by rewrite Hs.
    - destruct (proj1 Hdom) as [? ?]; [by eauto|done].
    - destruct (proj2 Hdom) as [? ?]; [by eauto|done].
    - done. }
  exists paths1, paths2, (_compare py_hash self0). split_and!.
  - done.
  - done.
  - apply set_eq. exact Hdom.
  - exact Hstored.
  - intros k x.
    assert (content <$> (paths paths1 !!! k) ≡ₚ content <$> (paths paths2 !!! k)) as Hc.
    { assert (∀ l, content <$> l
                   = (λ s : list (str * str) * option str, (attrib_dict s.1, s.2))
                     <$> (stored <$> l)) as Hl
        by (intros l; rewrite <- list_fmap_compose; by apply list_fmap_ext).
      rewrite !Hl. by rewrite Hstored. }
    by rewrite Hc.
  - unfold XMLCompare.__init__. by rewrite H1, H2.
  - exact Hempty.
  - by apply the_same_empty.
Qed.

Lemma reorder_invisible_witness :
  reorder doc_xy doc_yx
  ∧ ∃ self : XMLCompare.t,
      XMLCompare.__init__ telling_hash doc_xy doc_yx [py "name"] 80 = Ok self
      ∧ diff_items self = ∅.
Proof.
  assert (reorder doc_xy doc_yx) as Hre.
  { apply (reorder_children _ _ _ _ [item "x" "1"; item "y" "2"]).
    - repeat constructor; apply reorder_refl.
    - apply perm_swap. }
  split; [exact Hre|].
  destruct (reorder_invisible telling_hash doc_xy doc_yx [py "name"] 80 Hre)
    as (_ & _ & self & _ & _ & _ & _ & _ & Hinit & Hempty & _).
  exists self. split; [exact Hinit|exact Hempty].
Defined.

End reordering.

Lemma diff_keys_partition_witness :
  ∃ self,
    XMLCompare.__init__ telling_hash doc_ab doc_xy [] 80 = Ok self
    ∧ XMLCompare.diff_items self !! py "/r"
      = Some {| XMLCompare.root1 := Some [WrappedElement.Wrap doc_ab];
                XMLCompare.root2 := None |}.
Proof.
  destruct (diff_keys_partition telling_hash doc_ab doc_xy [] 80)
    as (self & paths1 & paths2 & H1 & H2 & Hinit & _ & Honly1 & _).
  destruct (__init___spec doc_ab [] 80) as (paths1' & H1' & _ & Hp1).
  destruct (__init___spec doc_xy [] 80) as (paths2' & H2' & _ & Hp2).
  rewrite H1 in H1'. injection H1' as <-.
  rewrite H2 in H2'. injection H2' as <-.
  exists self. split; [exact Hinit|].
  rewrite (Honly1 (py "/r")).
  - rewrite Hp1, collect_empty_total. vm_compute. reflexivity.
  - rewrite Hp1. apply collect_empty_dom.
    apply (bool_decide_unpack _). vm_compute. exact I.
  - rewrite Hp2. intros Hin%collect_empty_dom. revert Hin.
    apply (bool_decide_unpack _). vm_compute. exact I.
Defined.

(** ** The partition of the keys, by wrapper equality *)

Section partition_by_equality.
Import XMLCompare.
Variable py_hash : list WrappedElement.TupleItem → Z.

Lemma same_wrappers_singletons (x y : WrappedElement.t) :
  WrappedElement.__eq__ x y = true → same_wrappers [x] [y].
Proof.
  intros Hxy z. split.
  - intros (w & ->%list_elem_of_singleton & Hz). exists y. split; [by left|].
    eapply __eq___trans; [|exact Hz]. by apply __eq___sym.
  - intros (w & ->%list_elem_of_singleton & Hz). exists x. split; [by left|].
    by eapply __eq___trans.
Qed.

(** C1 (the code departs from the claim): for the documents
    [<r><e a="1" b="2"/></r>] and [<r><e b="2" a="1"/></r>] the key
    ['/r/e'] is in both path maps, and its two lists hold the same set of
    wrappers (the wrappers are equal); as soon as [hash] tells the two
    tuples of [__hash__] apart, the key is nevertheless in [diff_items], so
    that the keys of the report are not the claimed partition. *)
Theorem diff_key_despite_equal_wrappers :
  py_hash (WrappedElement.hashed_tuple (WrappedElement.Wrap elem_ab))
  ≠ py_hash (WrappedElement.hashed_tuple (WrappedElement.Wrap elem_ba)) →
  ∃ self paths1 paths2,
    XMLUniquePath.__init__ doc_ab [] 80 = Ok paths1
    ∧ XMLUniquePath.__init__ doc_ba [] 80 = Ok paths2
    ∧ XMLCompare.__init__ py_hash doc_ab doc_ba [] 80 = Ok self
    ∧ let map1 := XMLUniquePath.paths paths1 in
      let map2 := XMLUniquePath.paths paths2 in
      py "/r/e" ∈ dom map1
      ∧ py "/r/e" ∈ dom map2
      ∧ same_wrappers (map1 !!! py "/r/e") (map2 !!! py "/r/e")
      ∧ py "/r/e" ∈ dom (diff_items self)
      ∧ ¬ (∀ k, k ∈ dom (diff_items self) ↔
                (k ∈ dom map1 ∧ k ∉ dom map2)
                ∨ (k ∈ dom map2 ∧ k ∉ dom map1)
                ∨ (k ∈ dom map1 ∧ k ∈ dom map2
                   ∧ ¬ same_wrappers (map1 !!! k) (map2 !!! k))).
Proof.
  intros Hhash.
  destruct (__init___spec doc_ab [] 80) as (paths1 & H1 & _ & Hp1).
  destruct (__init___spec doc_ba [] 80) as (paths2 & H2 & _ & Hp2).
  assert (XMLUniquePath.paths paths1 !! py "/r/e" = Some [WrappedElement.Wrap elem_ab])
    as Hl1 by (rewrite Hp1, collect_empty_lookup; vm_compute; reflexivity).
  assert (XMLUniquePath.paths paths2 !! py "/r/e" = Some [WrappedElement.Wrap elem_ba])
    as Hl2 by (rewrite Hp2, collect_empty_lookup; vm_compute; reflexivity).
  set (self0 := {| diff_items := ∅; _paths1 := paths1; _paths2 := paths2 |}).
  assert (py "/r/e" ∈ dom (diff_items (_compare py_hash self0))) as Hentry.
  { apply elem_of_dom. eexists.
    apply (entry_for_different_sets py_hash self0 (py "/r/e")
             [WrappedElement.Wrap elem_ab] [WrappedElement.Wrap elem_ba]);
      [done|exact Hl1|exact Hl2|].
    intros Hs.
    pose proof (proj1 (same_set_keys py_hash _ _) Hs
                  (member_key py_hash (WrappedElement.Wrap elem_ab))) as Hk.
    rewrite !fmap_cons, !fmap_nil, !list_elem_of_singleton in Hk.
    pose proof (proj1 Hk eq_refl) as Hkey.
    unfold member_key in Hkey. injection Hkey as Hkey. by apply Hhash. }
  assert (same_wrappers (XMLUniquePath.paths paths1 !!! py "/r/e")
                        (XMLUniquePath.paths paths2 !!! py "/r/e")) as Hsame.
  { rewrite !lookup_total_alt, Hl1, Hl2. simpl.
    apply same_wrappers_singletons. vm_compute. reflexivity. }
  exists (_compare py_hash self0), paths1, paths2.
  split; [exact H1|]. split; [exact H2|].
  split; [unfold XMLCompare.__init__; by rewrite H1, H2|].
  intros map1 map2. split_and!.
  - apply elem_of_dom. eauto.
  - apply elem_of_dom. eauto.
  - exact Hsame.
  - exact Hentry.
  - intros Hall. apply (Hall (py "/r/e")) in Hentry.
    destruct Hentry as [[_ Hn]|[[_ Hn]|(_ & _ & Hn)]].
    + apply Hn, elem_of_dom. eauto.
    + apply Hn, elem_of_dom. eauto.
    + by apply Hn.
Qed.

End partition_by_equality.

Lemma diff_key_despite_equal_wrappers_witness :
  telling_hash (WrappedElement.hashed_tuple (WrappedElement.Wrap elem_ab))
  ≠ telling_hash (WrappedElement.hashed_tuple (WrappedElement.Wrap elem_ba))
  ∧ ∃ self,
      XMLCompare.__init__ telling_hash doc_ab doc_ba [] 80 = Ok self
      ∧ py "/r/e" ∈ dom (XMLCompare.diff_items self).
Proof.
  assert (telling_hash (WrappedElement.hashed_tuple (WrappedElement.Wrap elem_ab))
          ≠ telling_hash (WrappedElement.hashed_tuple (WrappedElement.Wrap elem_ba)))
    as Hhash by (vm_compute; discriminate).
  split; [exact Hhash|].
  destruct (diff_key_despite_equal_wrappers telling_hash Hhash)
    as (self & _ & _ & _ & _ & Hinit & _ & _ & _ & Hkey & _).
  exists self. split; [exact Hinit|exact Hkey].
Defined.

(** * Further properties *)

(** ** When two documents are the same *)

Section equivalence.
Import XMLCompare.
Variable py_hash : list WrappedElement.TupleItem → Z.

Lemma same_set_refl (l : list WrappedElement.t) : same_set py_hash l l.
Proof. by intros x. Qed.

Lemma same_set_sym (l1 l2 : list WrappedElement.t) :
  same_set py_hash l1 l2 → same_set py_hash l2 l1.
Proof. intros H x. by rewrite (H x). Qed.

Lemma eqb_of_list_sym (l1 l2 : list WrappedElement.t) :
  PySet.eqb py_hash (PySet.of_list py_hash l1) (PySet.of_list py_hash l2)
  = PySet.eqb py_hash (PySet.of_list py_hash l2) (PySet.of_list py_hash l1).
Proof.
  destruct (PySet.eqb py_hash (PySet.of_list py_hash l1) _) eqn:H12,
           (PySet.eqb py_hash (PySet.of_list py_hash l2) _) eqn:H21; try done.
  - apply of_list_eqb, same_set_sym, of_list_eqb in H12. congruence.
  - apply of_list_eqb, same_set_sym, of_list_eqb in H21. congruence.
Qed.

(** The comparison of two trees, with the path maps given as groupings
    of the synthetic paths. *)
Lemma XMLCompare_init_maps (root1 root2 : Element) (special_attribs : list str)
    (max_text_len : Z) :
  ∃ paths1 paths2,
    XMLUniquePath.paths paths1
    = collect (synth (configured special_attribs max_text_len) [] root1) ∅
    ∧ XMLUniquePath.paths paths2
      = collect (synth (configured special_attribs max_text_len) [] root2) ∅
    ∧ XMLUniquePath.__init__ root1 special_attribs max_text_len = Ok paths1
    ∧ XMLUniquePath.__init__ root2 special_attribs max_text_len = Ok paths2
    ∧ XMLCompare.__init__ py_hash root1 root2 special_attribs max_text_len
      = Ok (_compare py_hash {| diff_items := ∅; _paths1 := paths1; _paths2 := paths2 |}).
Proof.
  destruct (__init___spec root1 special_attribs max_text_len) as (paths1 & H1 & _ & Hp1).
  destruct (__init___spec root2 special_attribs max_text_len) as (paths2 & H2 & _ & Hp2).
  exists paths1, paths2. split_and!; try done.
  unfold XMLCompare.__init__. by rewrite H1, H2.
Qed.

(** The report is empty exactly when the maps have the same keys and the
    same set under every key. *)
Lemma _compare_empty_iff (self : XMLCompare.t) :
  diff_items self = ∅ →
  diff_items (_compare py_hash self) = ∅
  ↔ dom (XMLUniquePath.paths (_paths1 self)) = dom (XMLUniquePath.paths (_paths2 self))
    ∧ ∀ k, same_set py_hash (XMLUniquePath.paths (_paths1 self) !!! k)
                            (XMLUniquePath.paths (_paths2 self) !!! k).
Proof.
  intros Hempty.
  set (p1 := XMLUniquePath.paths (_paths1 self)).
  set (p2 := XMLUniquePath.paths (_paths2 self)).
  split.
  - intros Hnone.
    assert (∀ k, match p1 !! k, p2 !! k with
                 | Some l1, Some l2 => same_set py_hash l1 l2
                 | None, None => True
                 | _, _ => False
                 end) as Hk.
    { intros k. pose proof (_compare_lookup py_hash self k Hempty) as Hl.
      rewrite Hnone, lookup_empty in Hl. fold p1 p2 in Hl.
      destruct (p1 !! k) as [l1|], (p2 !! k) as [l2|]; try done.
      destruct (PySet.eqb _ _ _) eqn:Heq; [|done]. by apply of_list_eqb. }
    split.
    + apply set_eq. intros k. rewrite !elem_of_dom. specialize (Hk k).
      destruct (p1 !! k), (p2 !! k); try done; split; by intros [? ?].
    + intros k. rewrite !lookup_total_alt. specialize (Hk k).
      destruct (p1 !! k), (p2 !! k); done.
  - intros [Hdom Hsets]. apply map_eq. intros k.
    rewrite _compare_lookup, lookup_empty by done. fold p1 p2.
    specialize (Hsets k). rewrite !lookup_total_alt in Hsets.
    assert (is_Some (p1 !! k) ↔ is_Some (p2 !! k)) as Hsome
      by (rewrite <- !elem_of_dom; by rewrite Hdom).
    destruct (p1 !! k) as [l1|], (p2 !! k) as [l2|]; simpl in *.
    + apply of_list_eqb in Hsets. by rewrite Hsets.
    + destruct (proj1 Hsome) as [? ?]; [by eauto|done].
    + destruct (proj2 Hsome) as [? ?]; [by eauto|done].
    + done.
Qed.

(** Trees with the same set of pairs of a synthetic path and a stored
    content are the same for the comparison. *)
Lemma same_pairs_no_diff (root1 root2 : Element) (special_attribs : list str)
    (max_text_len : Z) :
  (∀ z, z ∈ synth_stored (configured special_attribs max_text_len) [] root1
        ↔ z ∈ synth_stored (configured special_attribs max_text_len) [] root2) →
  ∃ self,
    XMLCompare.__init__ py_hash root1 root2 special_attribs max_text_len = Ok self
    ∧ diff_items self = ∅.
Proof.
  intros Hpairs.
  destruct (XMLCompare_init_maps root1 root2 special_attribs max_text_len)
    as (paths1 & paths2 & Hp1 & Hp2 & _ & _ & Hinit).
  eexists. split; [exact Hinit|].
  apply _compare_empty_iff; [done|]. simpl. rewrite Hp1, Hp2.
  unfold synth_stored in Hpairs.
  set (l1 := synth (configured special_attribs max_text_len) [] root1) in *.
  set (l2 := synth (configured special_attribs max_text_len) [] root2) in *.
  split.
  - apply set_eq. intros k. rewrite !collect_empty_dom, !keys_stored.
    rewrite !list_elem_of_fmap. split; intros ([k' s] & -> & Hin); exists (k', s);
      (split; [done|]); by apply Hpairs.
  - intros k. rewrite !collect_empty_total. apply same_stored_same_set.
    intros s. rewrite !wrappers_at_stored, !list_elem_of_fmap.
    split; intros ([k' s'] & -> & [Hk Hin]%list_elem_of_filter); exists (k', s');
      (split; [done|]); apply list_elem_of_filter; (split; [done|]); by apply Hpairs.
Qed.

(** X1: for every pair of trees, [the_same] is true exactly when the two
    path maps have the same keys and, under every key, lists that hold the
    same set of wrappers. *)
Theorem the_same_characterised (root1 root2 : Element) (special_attribs : list str)
    (max_text_len : Z) :
  ∃ self paths1 paths2,
    XMLUniquePath.__init__ root1 special_attribs max_text_len = Ok paths1
    ∧ XMLUniquePath.__init__ root2 special_attribs max_text_len = Ok paths2
    ∧ XMLCompare.__init__ py_hash root1 root2 special_attribs max_text_len = Ok self
    ∧ (the_same self = true
       ↔ dom (XMLUniquePath.paths paths1) = dom (XMLUniquePath.paths paths2)
         ∧ ∀ k, same_set py_hash (XMLUniquePath.paths paths1 !!! k)
                                 (XMLUniquePath.paths paths2 !!! k)).
Proof.
  destruct (XMLCompare_init_maps root1 root2 special_attribs max_text_len)
    as (paths1 & paths2 & _ & _ & H1 & H2 & Hinit).
  eexists _, paths1, paths2. split_and!; [done|done|exact Hinit|].
  rewrite the_same_empty. by apply _compare_empty_iff.
Qed.

(** X2: comparing the documents the other way round gives the same keys,
    with the lists of [root1] and [root2] exchanged in every entry, and the
    same verdict. *)
Theorem compare_swapped (root1 root2 : Element) (special_attribs : list str)
    (max_text_len : Z) :
  ∃ self self',
    XMLCompare.__init__ py_hash root1 root2 special_attribs max_text_len = Ok self
    ∧ XMLCompare.__init__ py_hash root2 root1 special_attribs max_text_len = Ok self'
    ∧ diff_items self' = swap_roots <$> diff_items self
    ∧ the_same self' = the_same self.
Proof.
  destruct (XMLCompare_init_maps root1 root2 special_attribs max_text_len)
    as (paths1 & paths2 & _ & _ & H1 & H2 & Hinit).
  assert (XMLCompare.__init__ py_hash root2 root1 special_attribs max_text_len
          = Ok (_compare py_hash {| diff_items := ∅; _paths1 := paths2; _paths2 := paths1 |}))
    as Hinit' by (unfold XMLCompare.__init__; by rewrite H1, H2).
  eexists _, _. split_and!; [exact Hinit|exact Hinit'| |].
  - apply map_eq. intros k.
    rewrite lookup_fmap, !_compare_lookup by done. simpl.
    destruct (XMLUniquePath.paths paths1 !! k) as [l1|],
             (XMLUniquePath.paths paths2 !! k) as [l2|]; try done.
    rewrite (eqb_of_list_sym l2 l1). by destruct (PySet.eqb _ _ _).
  - assert (∀ s1 s2 : XMLCompare.t,
              diff_items s2 = swap_roots <$> diff_items s1 →
              the_same s2 = the_same s1) as Hsame.
    { intros s1 s2 Heq. unfold the_same. by rewrite Heq, map_size_fmap. }
    apply Hsame. apply map_eq. intros k.
    rewrite lookup_fmap, !_compare_lookup by done. simpl.
    destruct (XMLUniquePath.paths paths1 !! k) as [l1|],
             (XMLUniquePath.paths paths2 !! k) as [l2|]; try done.
    rewrite (eqb_of_list_sym l2 l1). by destruct (PySet.eqb _ _ _).
Qed.

(** X3: a document compared with itself gives an empty report, whatever
    the hash and the configuration. *)
Theorem compare_with_itself (root : Element) (special_attribs : list str)
    (max_text_len : Z) :
  ∃ self,
    XMLCompare.__init__ py_hash root root special_attribs max_text_len = Ok self
    ∧ diff_items self = ∅
    ∧ the_same self = true.
Proof.
  destruct (same_pairs_no_diff root root special_attribs max_text_len) as (self & Hinit & He).
  { done. }
  exists self. split_and!; [done|done|]. by apply the_same_empty.
Qed.

(** The pairs of a node: its own, then those of its children. *)
Lemma synth_stored_Elem (self : XMLUniquePath.t) (parent_path : str) tg a tx cs :
  synth_stored self parent_path (Elem tg a tx cs)
  = (parent_path ++ slash :: tg ++ XMLUniquePath.unique_str self (Elem tg a tx []), (a, tx))
    :: flat_map (synth_stored self
         (parent_path ++ slash :: tg ++ XMLUniquePath.unique_str self (Elem tg a tx []))) cs.
Proof.
  unfold synth_stored. simpl synth. rewrite fmap_cons.
  rewrite (unique_str_children self tg a tx cs []). f_equal.
  induction cs as [|c cs IH]; [done|]. simpl flat_map. by rewrite fmap_app, IH.
Qed.

(** X4: the comparison does not count.  A document in which one child of the
    root occurs twice in a row is the same as the document in which it
    occurs once. *)
Theorem repeated_child_invisible (tg : str) (a : list (str * str)) (tx : option str)
    (cs1 : list Element) (c : Element) (cs2 : list Element)
    (special_attribs : list str) (max_text_len : Z) :
  ∃ self,
    XMLCompare.__init__ py_hash (with_child tg a tx cs1 c cs2)
      (with_child_twice tg a tx cs1 c cs2) special_attribs max_text_len = Ok self
    ∧ diff_items self = ∅
    ∧ the_same self = true.
Proof.
  destruct (same_pairs_no_diff (with_child tg a tx cs1 c cs2)
              (with_child_twice tg a tx cs1 c cs2) special_attribs max_text_len)
    as (self & Hinit & He).
  { intros z. unfold with_child, with_child_twice.
    rewrite !synth_stored_Elem, !flat_map_app. simpl flat_map.
    rewrite !elem_of_cons, !elem_of_app. tauto. }
  exists self. split_and!; [done|done|]. by apply the_same_empty.
Qed.

End equivalence.

(** ** The fragment that enters the path *)

Section segment.
Import XMLUniquePath.
Implicit Types (self : XMLUniquePath.t) (elem : Element).

Lemma limit_subseteq self (u : str) : limit self u ⊆ u.
Proof.
  unfold limit, PyStr.slice_to. repeat case_decide; try done;
    intros c Hc; by apply elem_of_take in Hc as (i & ?%list_elem_of_lookup_2 & _).
Qed.

(** X5: whatever the element and the configuration, the fragment that
    enters the synthetic path holds neither a path separator nor a newline;
    with a maximum length [N ≥ 1] it has at most [N] characters. *)
Theorem unique_str_fits self elem :
  (slash ∉ unique_str self elem)
  ∧ (newline ∉ unique_str self elem)
  ∧ ((1 ≤ _max_text_len self)%Z →
     (Z.of_nat (length (unique_str self elem)) ≤ _max_text_len self)%Z).
Proof.
  destruct (sanitize_clean (fragment self elem)) as [Hs Hn].
  split_and!.
  - intros Hin. by apply Hs, (limit_subseteq self).
  - intros Hin. by apply Hn, (limit_subseteq self).
  - intros HN. unfold unique_str, limit. case_decide as Hlong; [|lia].
    rewrite slice_to_take by lia. rewrite length_take. lia.
Qed.

Lemma unique_str_fits_witness :
  unique_str (configured [] 3) slash_text_elem = py "abc"
  ∧ (Z.of_nat (length (unique_str (configured [] 3) slash_text_elem)) ≤ 3)%Z.
Proof.
  split; [vm_compute; reflexivity|].
  exact (proj2 (proj2 (unique_str_fits (configured [] 3) slash_text_elem))
           ltac:(vm_compute; discriminate)).
Defined.

(** X6: a maximum length [N ≤ 0] does not cut the fragment to a length:
    through Python's negative slice bound, the sanitised fragment loses its
    last [1 - N] characters, however long it is. *)
Theorem nonpositive_max_drops_tail self elem :
  (_max_text_len self ≤ 0)%Z →
  let clean := sanitize (fragment self elem) in
  unique_str self elem
  = take (length clean - Z.to_nat (1 - _max_text_len self)) clean.
Proof.
  intros HN clean. unfold unique_str, limit. fold clean.
  case_decide as Hlong.
  - unfold PyStr.slice_to. rewrite decide_False by lia. do 2 f_equal. lia.
  - assert (length clean = 0) as Hlen by lia.
    destruct clean; [done|simpl in Hlen; lia].
Qed.

Lemma nonpositive_max_drops_tail_witness :
  unique_str (configured [] 0) (letters_elem 5) = py "aaaa"
  ∧ unique_str (configured [] (-2)) (letters_elem 5) = py "aa".
Proof.
  split.
  - exact (nonpositive_max_drops_tail (configured [] 0) (letters_elem 5)
             ltac:(vm_compute; discriminate)).
  - exact (nonpositive_max_drops_tail (configured [] (-2)) (letters_elem 5)
             ltac:(vm_compute; discriminate)).
Defined.

End segment.

(** ** When the translation lookup raises *)

Section lookup_errors.
Import XMLUniquePath.

(** X7: [_replace_trans] raises in one situation only: the path is the
    empty string, the table is not empty and the empty string is not one
    of its keys; the exception is then [KeyError('')].  For every non-empty
    path it returns a string. *)
Theorem replace_trans_raises (self : XMLUniquePath.t) (path : str) (e : exn) :
  _replace_trans self path = Raise e
  ↔ e = KeyError []
    ∧ path = []
    ∧ _trans_table self ≠ ∅
    ∧ _trans_table self !! [] = None.
Proof.
  unfold _replace_trans. destruct (decide (size (_trans_table self) = 0)) as [Hsz|Hsz].
  { apply map_size_empty_iff in Hsz. split; [done|]. by intros (_ & _ & Hne & _). }
  assert (_trans_table self ≠ ∅) as Hne by (by intros ?%map_size_empty_iff).
  destruct path as [|c path].
  - simpl. destruct (_trans_table self !! []) as [t|] eqn:Ht.
    + split; [done|]. by intros (_ & _ & _ & ?).
    + split; [by intros [= <-]|]. by intros (-> & _).
  - pose proof (lop_loop_post (S (length (c :: path))) (_trans_table self)
      (c :: path) (c :: path) ltac:(lia) ltac:(done)) as Hpost.
    destruct (lop_loop _ _ _ _) as [v|q|]; simpl in Hpost; [| |done].
    + split; [done|]. by intros (_ & ? & _).
    + destruct Hpost as (_ & [t Ht] & _). rewrite Ht.
      split; [done|]. by intros (_ & ? & _).
Qed.

End lookup_errors.

(** ** The shape of the path map *)

Section path_map_shape.
Import XMLUniquePath Lxml.
Implicit Types (self : XMLUniquePath.t) (e c : Element)
  (l : list (str * WrappedElement.t)) (m : gmap str (list WrappedElement.t)).

Lemma record_path_wrappers m k w :
  mjoin (map_to_list (record_path m (k, w))).*2 ≡ₚ mjoin (map_to_list m).*2 ++ [w].
Proof.
  unfold record_path. simpl. destruct (m !! k) as [l0|] eqn:Hk.
  - rewrite <- insert_delete_eq.
    rewrite map_to_list_insert by apply lookup_delete_eq.
    rewrite <- (map_to_list_delete m k l0 Hk). simpl.
    rewrite <- !app_assoc. apply Permutation_app_head, Permutation_app_comm.
  - rewrite map_to_list_insert by done. simpl. apply Permutation_cons_append.
Qed.

Lemma collect_wrappers l m :
  mjoin (map_to_list (collect l m)).*2 ≡ₚ mjoin (map_to_list m).*2 ++ l.*2.
Proof.
  revert m. induction l as [|[k w] l IH]; intros m.
  - simpl. by rewrite app_nil_r.
  - unfold collect in *. simpl foldl. rewrite IH, record_path_wrappers.
    rewrite fmap_cons. simpl. by rewrite <- app_assoc.
Qed.

(** X8: no list of the path map is empty, and the lists together hold the
    wrappers of the nodes of the tree, each node once: no node is lost or
    counted twice, so the lengths of the lists add up to the number of
    nodes. *)
Theorem path_map_holds_every_node (root : Element) (special_attribs : list str)
    (max_text_len : Z) :
  ∃ self,
    XMLUniquePath.__init__ root special_attribs max_text_len = Ok self
    ∧ (∀ k ws, paths self !! k = Some ws → ws ≠ [])
    ∧ mjoin (map_to_list (paths self)).*2
      ≡ₚ (λ n, WrappedElement.Wrap (elem n)) <$> iter root
    ∧ length (mjoin (map_to_list (paths self)).*2) = length (iter root).
Proof.
  destruct (__init___spec root special_attribs max_text_len) as (self & Hinit & _ & Hpaths).
  assert (mjoin (map_to_list (paths self)).*2
          ≡ₚ (λ n, WrappedElement.Wrap (elem n)) <$> iter root) as Hperm.
  { rewrite Hpaths, collect_wrappers, map_to_list_empty. simpl.
    by rewrite (synth_nodes _ root [] None (slash :: tag root)). }
  exists self. split_and!; [done| |done|].
  - intros k ws. rewrite Hpaths, collect_empty_lookup.
    destruct (wrappers_at k _); [done|]. by intros [= <-].
  - by rewrite Hperm, length_fmap.
Qed.

Lemma synth_prefix self e :
  ∀ parent_path kw,
    kw ∈ synth self parent_path e →
    (parent_path ++ slash :: tag e ++ unique_str self e) `prefix_of` kw.1.
Proof.
  induction e as [tg a tx cs IH] using Element_children_ind.
  intros parent_path kw. simpl synth.
  intros [->|Hin]%elem_of_cons; [done|].
  simpl tag. revert Hin.
  generalize (parent_path ++ slash :: tg ++ unique_str self (Elem tg a tx cs)).
  intros path Hin.
  induction IH as [|c cs Hc _ IHcs]; simpl in Hin.
  { by apply elem_of_nil in Hin. }
  apply elem_of_app in Hin as [Hin|Hin]; [|by apply IHcs].
  etrans; [|by apply Hc]. by apply prefix_app_r.
Qed.

(** X9: the synthetic path of the root, ['/'] followed by its tag and
    fragment, is a key of the path map; the list under it begins with the
    wrapper of the root; and it is a prefix of every key. *)
Theorem root_key_leads (root : Element) (special_attribs : list str)
    (max_text_len : Z) :
  ∃ self,
    XMLUniquePath.__init__ root special_attribs max_text_len = Ok self
    ∧ let root_key :=
        slash :: tag root ++ unique_str (configured special_attribs max_text_len) root in
      (∃ ws, paths self !! root_key = Some (WrappedElement.Wrap root :: ws))
      ∧ ∀ k, k ∈ dom (paths self) → root_key `prefix_of` k.
Proof.
  destruct (__init___spec root special_attribs max_text_len) as (self & Hinit & _ & Hpaths).
  exists self. split; [done|]. intros root_key. split.
  - rewrite Hpaths, collect_empty_lookup. destruct root as [tg a tx cs].
    simpl synth. rewrite wrappers_at_cons_eq. eauto.
  - intros k. rewrite Hpaths, collect_empty_dom.
    intros (kw & -> & Hin)%list_elem_of_fmap.
    by apply (synth_prefix _ root []).
Qed.

End path_map_shape.

(** ** The lookups during construction *)

Section construction.
Import XMLUniquePath Lxml.
Implicit Types (self : XMLUniquePath.t) (e c : Element) (cs : list Element).

Lemma lookups_exact_app (l1 l2 : list Node) self self' :
  lookups_exact l1 self →
  for_each visit l1 self = Ok self' →
  lookups_exact l2 self' →
  lookups_exact (l1 ++ l2) self.
Proof.
  revert self. induction l1 as [|n l1 IH]; intros self Hex Hrun Hrest; simpl in *.
  - by injection Hrun as ->.
  - destruct Hex as (Hparent & self1 & Hvisit & Hex1). split; [done|].
    exists self1. split; [done|]. rewrite Hvisit in Hrun. simpl in Hrun. by eapply IH.
Qed.

Lemma parent_known_lookup par self :
  parent_known par self → ∃ t, _replace_trans self (default [] par) = Ok t.
Proof.
  destruct par as [p|]; simpl.
  - intros [t Ht]. exists t. by apply _replace_trans_exact.
  - intros Hempty. exists []. by apply _replace_trans_empty_table.
Qed.

Lemma children_exact cs :
  Forall (λ c, ∀ par p self, parent_known par self → lookups_exact (iter_from par p c) self) cs →
  ∀ p before self,
    is_Some (_trans_table self !! p) →
    lookups_exact (iter_siblings p before cs) self.
Proof.
  induction 1 as [|c cs Hc _ IHcs]; intros p before self Hp; [done|].
  simpl iter_siblings.
  destruct Hp as [t Ht].
  destruct (visit_subtree c (Some p) (p ++ step before c cs) self t) as
    (self' & Hrun & _ & _ & Hkeep & _).
  { by apply _replace_trans_exact. }
  eapply lookups_exact_app; [|exact Hrun|].
  - apply Hc. simpl. eauto.
  - apply IHcs. rewrite Hkeep; [eauto|].
    pose proof (step_length before c cs). rewrite length_app. lia.
Qed.

Lemma subtree_exact e :
  ∀ par p self, parent_known par self → lookups_exact (iter_from par p e) self.
Proof.
  induction e as [tg a tx cs IH] using Element_children_ind.
  intros par p self Hpar. rewrite iter_from_unfold. simpl children.
  destruct (parent_known_lookup par self Hpar) as [t Ht].
  destruct (visit_spec self {| elem := Elem tg a tx cs; getpath := p; getparent := par |}
              t Ht) as (self1 & Hvisit & _ & _ & Htable1).
  simpl. split.
  - destruct par as [q|]; [|done]. simpl in *. destruct Hpar as [t' Ht'].
    exists t'. split; [done|]. by apply _replace_trans_exact.
  - exists self1. split; [done|]. apply children_exact; [done|].
    rewrite Htable1. simpl. rewrite lookup_insert_eq. eauto.
Qed.

(** X10: while the path map is built, the translation lookup never falls
    back and never strips a segment: the root is looked up while the table
    is empty, and for every other node the raw path of its parent is
    already a key of the table, whose value is what the lookup returns. *)
Theorem construction_lookups_exact (root : Element) (special_attribs : list str)
    (max_text_len : Z) :
  lookups_exact (iter root)
    {| XMLUniquePath.root := root;
       _special_attribs := special_attribs;
       _max_text_len := max_text_len;
       paths := ∅;
       _trans_table := ∅ |}.
Proof. by apply subtree_exact. Qed.

(** *** What the translation table holds in the end *)

Lemma insert_all_app (l1 l2 : list (str * str)) (table : gmap str str) :
  insert_all (l1 ++ l2) table = insert_all l2 (insert_all l1 table).
Proof. apply foldl_app. Qed.

Lemma insert_all_lookup_other (l : list (str * str)) (table : gmap str str) k :
  k ∉ l.*1 → insert_all l table !! k = table !! k.
Proof.
  revert table. induction l as [|[k' v'] l IH]; intros table Hk; [done|].
  apply not_elem_of_cons in Hk as [Hne Hk].
  unfold insert_all in *. simpl foldl. rewrite IH by done. by apply lookup_insert_ne.
Qed.

Lemma insert_all_lookup (l : list (str * str)) (table : gmap str str) k v :
  NoDup l.*1 → (k, v) ∈ l → insert_all l table !! k = Some v.
Proof.
  revert table. induction l as [|[k' v'] l IH]; intros table Hnd Hin.
  { by apply elem_of_nil in Hin. }
  apply NoDup_cons in Hnd as [Hnot Hnd].
  unfold insert_all in *. simpl foldl.
  apply elem_of_cons in Hin as [[= -> ->]|Hin].
  - change (insert_all l (<[k':=v']> table) !! k' = Some v').
    rewrite insert_all_lookup_other by done. apply lookup_insert_eq.
  - by apply IH.
Qed.

Lemma insert_all_dom (l : list (str * str)) (table : gmap str str) :
  dom (insert_all l table) = dom table ∪ list_to_set l.*1.
Proof.
  revert table. induction l as [|[k v] l IH]; intros table.
  - simpl. by rewrite union_empty_r_L.
  - unfold insert_all in *. simpl foldl. rewrite IH, dom_insert_L. simpl.
    apply set_eq. intros x. rewrite !elem_of_union. tauto.
Qed.

Lemma synth_length self e parent_path par p :
  length (synth self parent_path e) = length (iter_from par p e).
Proof.
  pose proof (f_equal length (synth_nodes self e parent_path par p)) as H.
  by rewrite !length_fmap in H.
Qed.

Lemma children_table cs :
  Forall subtree_table cs →
  ∀ self p path before self2 self',
    same_config self self2 →
    _trans_table self2 !! p = Some path →
    for_each visit (iter_siblings p before cs) self2 = Ok self' →
    _trans_table self'
    = insert_all (zip (getpath <$> iter_siblings p before cs)
                      (flat_map (synth self path) cs).*1) (_trans_table self2).
Proof.
  induction 1 as [|c cs Hc _ IHcs]; intros self p path before self2 self' Hcfg Hp Hrun.
  { simpl in *. by injection Hrun as ->. }
  simpl iter_siblings in *. simpl flat_map. rewrite for_each_app in Hrun.
  destruct (visit_subtree c (Some p) (p ++ step before c cs) self2 path) as
    (self3 & Hrun3 & Hc3 & _ & Hkeep & _).
  { by apply _replace_trans_exact. }
  rewrite Hrun3 in Hrun. simpl in Hrun.
  rewrite !fmap_app, zip_with_app by
    (rewrite !length_fmap; symmetry; apply synth_length).
  rewrite insert_all_app.
  rewrite (IHcs self p path (before ++ [c]) self3 self'); [| |
    |done].
  - f_equal. rewrite (Hc (Some p) (p ++ step before c cs) self2 path self3); [|
      by apply _replace_trans_exact|done].
    unfold raw_to_synth. by rewrite (synth_config self self2).
  - by eapply same_config_trans.
  - rewrite Hkeep; [done|].
    pose proof (step_length before c cs). rewrite length_app. lia.
Qed.

Lemma subtree_table_holds e : subtree_table e.
Proof.
  induction e as [tg a tx cs IH] using Element_children_ind.
  intros par p self parent_path self' Hparent Hrun.
  unfold raw_to_synth. rewrite iter_from_unfold in *. simpl children in *.
  destruct (visit_spec self {| elem := Elem tg a tx cs; getpath := p; getparent := par |}
              parent_path Hparent) as (self1 & Hvisit & Hc1 & _ & Htable1).
  simpl in Htable1. simpl for_each in Hrun. rewrite Hvisit in Hrun. simpl in Hrun.
  simpl synth. rewrite !fmap_cons. simpl zip. unfold insert_all. simpl foldl.
  rewrite <- Htable1.
  apply (children_table cs IH self p _ [] self1 self' Hc1); [|done].
  rewrite Htable1. apply lookup_insert_eq.
Qed.

(** X11: after construction the keys of the translation table are the raw
    paths of the nodes; and when the raw paths tell the nodes apart, the
    table gives for the raw path of every node the synthetic path under
    which the wrapper of that node is filed in the path map. *)
Theorem translation_table_records (root : Element) (special_attribs : list str)
    (max_text_len : Z) :
  ∃ self,
    XMLUniquePath.__init__ root special_attribs max_text_len = Ok self
    ∧ dom (_trans_table self) = list_to_set (getpath <$> iter root)
    ∧ (NoDup (getpath <$> iter root) →
       ∀ n, n ∈ iter root →
         ∃ k, _trans_table self !! getpath n = Some k
              ∧ WrappedElement.Wrap (elem n) ∈ paths self !!! k).
Proof.
  destruct (__init___spec root special_attribs max_text_len) as (self & Hinit & _ & Hpaths).
  pose proof Hinit as Hrun. unfold XMLUniquePath.__init__, _create_path_tree, iter in Hrun.
  simpl in Hrun.
  apply (subtree_table_holds root None (slash :: tag root) _ []) in Hrun;
    [|by apply _replace_trans_empty_table].
  unfold raw_to_synth in Hrun. simpl _trans_table in Hrun.
  fold (iter root) in Hrun.
  rewrite (synth_config (configured special_attribs max_text_len)) in Hrun by done.
  set (nodes := synth (configured special_attribs max_text_len) [] root) in *.
  assert (length (getpath <$> iter root) = length nodes.*1) as Hlen.
  { rewrite !length_fmap. symmetry. apply synth_length. }
  exists self. split_and!; [done| |].
  - rewrite Hrun, insert_all_dom, dom_empty_L, union_empty_l_L.
    by rewrite fst_zip by lia.
  - intros Hnd n (i & Hi)%list_elem_of_lookup_1.
    destruct (lookup_lt_is_Some_2 nodes i) as [[k w] Hkw].
    { rewrite !length_fmap in Hlen. rewrite <- Hlen. by eapply lookup_lt_Some. }
    exists k. split.
    + rewrite Hrun. apply insert_all_lookup; [by rewrite fst_zip by lia|].
      apply list_elem_of_lookup_2 with i. apply lookup_zip_with_Some.
      exists (getpath n), k. split_and!; [done| |].
      * by rewrite list_lookup_fmap, Hi.
      * by rewrite list_lookup_fmap, Hkw.
    + rewrite Hpaths, collect_empty_total. unfold wrappers_at.
      pose proof (synth_nodes (configured special_attribs max_text_len) root []
                    None (slash :: tag root)) as Hnodes.
      fold nodes in Hnodes. fold (iter root) in Hnodes.
      apply (f_equal (λ l, l !! i)) in Hnodes.
      rewrite !list_lookup_fmap, Hkw, Hi in Hnodes. simpl in Hnodes.
      injection Hnodes as <-.
      apply list_elem_of_fmap. exists (k, w). split; [done|].
      apply list_elem_of_filter. split; [done|]. by eapply list_elem_of_lookup_2.
Qed.

Lemma translation_table_records_witness :
  NoDup (getpath <$> iter doc_xy)
  ∧ ∃ self,
      XMLUniquePath.__init__ doc_xy [py "name"] 80 = Ok self
      ∧ ∃ k, _trans_table self !! py "/Root/Item[2]" = Some k
             ∧ WrappedElement.Wrap (item "y" "2") ∈ paths self !!! k.
Proof.
  assert (NoDup (getpath <$> iter doc_xy)) as Hnd
    by (apply (bool_decide_unpack _); vm_compute; exact I).
  split; [exact Hnd|].
  destruct (translation_table_records doc_xy [py "name"] 80) as (self & Hinit & _ & Hrec).
  exists self. split; [exact Hinit|].
  apply (Hrec Hnd {| elem := item "y" "2"; getpath := py "/Root/Item[2]";
                     getparent := Some (py "/Root") |}).
  apply (list_elem_of_lookup_2 _ 3). vm_compute. reflexivity.
Defined.

End construction.

(** ** The entries of the report *)

Section entries.
Import XMLCompare.
Variable py_hash : list WrappedElement.TupleItem → Z.

(** X12: every entry of the report names at least one document, and each
    list it carries is the whole, non-empty list that the path map of that
    document files under the key. *)
Theorem diff_entries_carry_lists (tree1 tree2 : Element) (special_attribs : list str)
    (max_text_len : Z) :
  ∃ self,
    XMLCompare.__init__ py_hash tree1 tree2 special_attribs max_text_len = Ok self
    ∧ ∀ k d, diff_items self !! k = Some d →
        (is_Some (root1 d) ∨ is_Some (root2 d))
        ∧ (∀ ws, root1 d = Some ws →
             ws ≠ [] ∧ XMLUniquePath.paths (_paths1 self) !! k = Some ws)
        ∧ (∀ ws, root2 d = Some ws →
             ws ≠ [] ∧ XMLUniquePath.paths (_paths2 self) !! k = Some ws).
Proof.
  destruct (XMLCompare_init_maps py_hash tree1 tree2 special_attribs max_text_len)
    as (paths1 & paths2 & Hp1 & Hp2 & _ & _ & Hinit).
  eexists. split; [exact Hinit|]. intros k d.
  rewrite _compare_lookup by done. simpl.
  assert (∀ (p : XMLUniquePath.t) l ws,
            XMLUniquePath.paths p = collect l ∅ →
            XMLUniquePath.paths p !! k = Some ws → ws ≠ []) as Hne.
  { intros p l ws ->. rewrite collect_empty_lookup.
    destruct (wrappers_at k l); [done|]. by intros [= <-]. }
  destruct (XMLUniquePath.paths paths1 !! k) as [l1|] eqn:H1,
           (XMLUniquePath.paths paths2 !! k) as [l2|] eqn:H2.
  - destruct (PySet.eqb _ _ _); [done|]. intros [= <-]. simpl.
    split_and!; [left; eauto| |]; intros ws [= <-]; split; eauto.
  - intros [= <-]. simpl. split_and!; [left; eauto| |done].
    intros ws [= <-]; split; eauto.
  - intros [= <-]. simpl. split_and!; [right; eauto|done|].
    intros ws [= <-]; split; eauto.
  - done.
Qed.

End entries.

(** ** The printed report *)

Section insertion.
Import XMLCompare.
Variable py_hash : list WrappedElement.TupleItem → Z.

(** The order in which [_compare] inserts the keys lists every key of the
    report once. *)
Lemma insertion_order_enumerates (self : XMLCompare.t) :
  diff_items self = ∅ →
  insertion_order py_hash (_compare py_hash self)
  ≡ₚ (map_to_list (diff_items (_compare py_hash self))).*1.
Proof.
  intros Hempty.
  pose proof (λ k, _compare_lookup py_hash self k Hempty) as Hlookup.
  set (d := diff_items (_compare py_hash self)) in *.
  unfold insertion_order. simpl.
  set (p1 := XMLUniquePath.paths (_paths1 self)) in *.
  set (p2 := XMLUniquePath.paths (_paths2 self)) in *.
  rewrite !reverse_Permutation.
  apply NoDup_Permutation.
  - apply NoDup_app. split_and!; [apply NoDup_elements| |].
    { intros k [Hk1 Hk2]%elem_of_elements%elem_of_difference [Hin|Hin]%elem_of_app.
      - by apply elem_of_elements, elem_of_difference in Hin as [_ Hin].
      - apply list_elem_of_filter in Hin as [_ Hin].
        by apply elem_of_elements, elem_of_intersection in Hin as [_ Hin]. }
    apply NoDup_app. split_and!; [apply NoDup_elements| |].
    { intros k [Hk1 Hk2]%elem_of_elements%elem_of_difference
        [_ Hin]%list_elem_of_filter.
      by apply elem_of_elements, elem_of_intersection in Hin as [Hin _]. }
    apply NoDup_filter, NoDup_elements.
  - apply NoDup_fst_map_to_list.
  - intros k.
    rewrite !elem_of_app, list_elem_of_filter, !elem_of_elements.
    rewrite elem_of_difference, elem_of_difference, elem_of_intersection.
    rewrite !elem_of_dom, !lookup_total_alt.
    assert (k ∈ (map_to_list d).*1 ↔ is_Some (d !! k)) as ->.
    { rewrite list_elem_of_fmap. split.
      - intros ([k' v] & -> & Hin%elem_of_map_to_list). eauto.
      - intros [v Hv]. exists (k, v). split; [done|]. by apply elem_of_map_to_list. }
    rewrite Hlookup.
    destruct (p1 !! k) as [l1|], (p2 !! k) as [l2|]; simpl.
    + destruct (PySet.eqb _ _ _).
      * split; [|by intros [? ?]].
        intros [[_ []]|[[_ []]|[? _]]]; eauto; done.
      * split; [eauto|]. intros _. right. right. eauto.
    + split; [eauto|]. intros _. left. split; [eauto|]. by intros [? ?].
    + split; [eauto|]. intros _. right. left. split; [eauto|]. by intros [? ?].
    + split; [|by intros [? ?]].
      intros [[[? ?] _]|[[[? ?] _]|[_ [[? ?] _]]]]; done.
Qed.

End insertion.

Section report.
Import XMLCompare.
Variable sourceline : bool → str → nat → str.
Variable getpath_of : bool → str → nat → str.
Variable attrib_repr : list (str * str) → str.

Local Abbreviation report := (get_diffs_as_string sourceline getpath_of attrib_repr).
Local Abbreviation block := (write_entry sourceline getpath_of attrib_repr).

Lemma foldl_max_bounds (l : list nat) (x : nat) :
  x ≤ foldl Nat.max x l
  ∧ (∀ y, y ∈ l → y ≤ foldl Nat.max x l)
  ∧ (foldl Nat.max x l = x ∨ foldl Nat.max x l ∈ l).
Proof.
  revert x. induction l as [|z l IH]; intros x; simpl.
  - split_and!; [done| |by left]. intros y Hy. by apply elem_of_nil in Hy.
  - destruct (IH (x `max` z)) as (Hle & Hall & Hin). split_and!.
    + lia.
    + intros y [->|Hy]%elem_of_cons; [lia|by apply Hall].
    + destruct Hin as [Heq|Hin]; [|right; by right].
      rewrite Heq. destruct (Nat.max_spec x z) as [[_ ->]|[_ ->]]; [right; by left|by left].
Qed.

Lemma py_max_spec (l : list nat) :
  l ≠ [] → ∃ m, py_max l = Some m ∧ (∀ y, y ∈ l → y ≤ m) ∧ m ∈ l.
Proof.
  destruct l as [|x l]; [done|]. intros _. simpl. eexists. split; [done|].
  destruct (foldl_max_bounds l x) as (Hle & Hall & Hin). split.
  - intros y [->|Hy]%elem_of_cons; [done|by apply Hall].
  - destruct Hin as [->|Hin]; [by left|by right].
Qed.

Lemma the_same_false_entries (self : XMLCompare.t) :
  the_same self = false → map_to_list (diff_items self) ≠ [].
Proof.
  intros Hsame Hnil. apply map_to_list_empty_iff in Hnil.
  apply the_same_empty in Hnil. congruence.
Qed.

(** Read in the order of its own listing, a dictionary gives its
    entries. *)
Lemma dict_items_own_order (d : gmap str DiffInfo) :
  dict_items (map_to_list d).*1 d = map_to_list d.
Proof.
  unfold dict_items.
  assert (Forall (λ kv, d !! kv.1 = Some kv.2) (map_to_list d)) as Hall.
  { apply Forall_forall. intros [k v] Hin. by apply elem_of_map_to_list. }
  induction Hall as [|[k v] l Hk _ IH]; [done|].
  csimpl in *. rewrite Hk. csimpl. by rewrite IH.
Qed.

(** Read in any order that lists every key once, a dictionary gives all
    its entries, each once, with the keys in that order. *)
Lemma dict_items_enumerates (order : list str) (d : gmap str DiffInfo) :
  order ≡ₚ (map_to_list d).*1 →
  dict_items order d ≡ₚ map_to_list d ∧ (dict_items order d).*1 = order.
Proof.
  intros Hperm. split.
  - rewrite <- (dict_items_own_order d). unfold dict_items. by rewrite Hperm.
  - assert (Forall (λ k, is_Some (d !! k)) order) as Hall.
    { apply Forall_forall. intros k Hk. rewrite Hperm in Hk.
      apply list_elem_of_fmap in Hk as ([k' v] & -> & Hin%elem_of_map_to_list). eauto. }
    clear Hperm. unfold dict_items. induction Hall as [|k l [v Hk] _ IH]; [done|].
    csimpl. rewrite Hk. csimpl. by rewrite IH.
Qed.

(** X13: whatever the insertion order of [diff_items],
    [get_diffs_as_string] returns a string ([max] is never taken of an
    empty list), and the string is empty exactly when the documents are
    the same. *)
Theorem report_empty_iff_same (order : list str) (self : XMLCompare.t) :
  order ≡ₚ (map_to_list (diff_items self)).*1 →
  ∃ out, report order self = Some out ∧ (out = [] ↔ the_same self = true).
Proof.
  intros Horder. unfold get_diffs_as_string. destruct (the_same self) eqn:Hsame.
  { by exists []. }
  destruct (dict_items_enumerates order _ Horder) as [Hitems _].
  destruct (py_max_spec (length <$> (dict_items order (diff_items self)).*1))
    as (m & -> & _).
  { pose proof (the_same_false_entries self Hsame) as Hne.
    intros Hnil. apply Hne, Permutation_nil. rewrite <- Hitems.
    by destruct (dict_items order (diff_items self)). }
  simpl. eexists. split; [done|]. by split.
Qed.


End report.

(** The report of [<r>x</r>] against [<r>y</r>], read in the order in which
    [_compare] has inserted the keys: ['/rx'], of document 1 only, comes
    before ['/ry'], of document 2 only. *)
Lemma compare_rx_ry :
  ∃ self,
    XMLCompare.__init__ telling_hash doc_rx doc_ry [] 80 = Ok self
    ∧ insertion_order telling_hash self = [py "/rx"; py "/ry"]
    ∧ insertion_order telling_hash self ≡ₚ (map_to_list (XMLCompare.diff_items self)).*1
    ∧ XMLCompare.the_same self = false.
Proof.
  destruct (XMLCompare_init_maps telling_hash doc_rx doc_ry [] 80)
    as (paths1 & paths2 & Hp1 & Hp2 & _ & _ & Hinit).
  set (self0 := {| XMLCompare.diff_items := ∅; XMLCompare._paths1 := paths1;
                   XMLCompare._paths2 := paths2 |}) in *.
  pose proof (insertion_order_enumerates telling_hash self0 eq_refl) as Henum.
  assert (insertion_order telling_hash (XMLCompare._compare telling_hash self0)
          = [py "/rx"; py "/ry"]) as Horder.
  { unfold insertion_order. simpl. rewrite Hp1, Hp2. vm_compute. reflexivity. }
  exists (XMLCompare._compare telling_hash self0).
  split_and!; [exact Hinit|exact Horder|exact Henum|].
  apply not_true_iff_false. intros Hsame%the_same_empty.
  rewrite Hsame, map_to_list_empty, Horder in Henum. simpl in Henum.
  symmetry in Henum. by apply Permutation_nil_cons in Henum.
Qed.

Lemma report_empty_iff_same_witness :
  ∃ self out,
    XMLCompare.__init__ telling_hash doc_rx doc_ry [] 80 = Ok self
    ∧ get_diffs_as_string (λ _ _ _, py "1") (λ _ _ _, py "/r") (λ _, [])
        [py "/rx"; py "/ry"] self = Some out
    ∧ out ≠ [].
Proof.
  destruct compare_rx_ry as (self & Hinit & Horder & Henum & Hsame).
  rewrite Horder in Henum.
  destruct (report_empty_iff_same (λ _ _ _, py "1") (λ _ _ _, py "/r") (λ _, [])
              [py "/rx"; py "/ry"] self Henum) as (out & Hout & Hiff).
  exists self, out. split_and!; [exact Hinit|exact Hout|].
  intros Hnil. apply Hiff in Hnil. congruence.
Defined.


(** ** What the verdict guarantees *)

Section verdict.
Import XMLCompare.
Variable py_hash : list WrappedElement.TupleItem → Z.

Lemma same_set_counterpart (l1 l2 : list WrappedElement.t) (w1 : WrappedElement.t) :
  same_set py_hash l1 l2 → w1 ∈ l1 →
  ∃ w2, w2 ∈ l2 ∧ WrappedElement.__eq__ w1 w2 = true.
Proof.
  intros Hs Hin. destruct (proj1 (Hs w1)) as (w2 & Hw2 & Hsame).
  { exists w1. split; [done|]. apply same_member_key. done. }
  exists w2. split; [done|].
  apply andb_true_iff in Hsame as [_ Heq]. by apply __eq___sym.
Qed.

Lemma wrappers_at_elem_of k w (l : list (str * WrappedElement.t)) :
  w ∈ wrappers_at k l ↔ (k, w) ∈ l.
Proof.
  unfold wrappers_at. rewrite list_elem_of_fmap. split.
  - intros ([k' w'] & -> & [Hk Hin]%list_elem_of_filter). simpl in *. by subst.
  - intros Hin. exists (k, w). split; [done|]. by apply list_elem_of_filter.
Qed.

(** X15: a verdict "the same" leaves no node unmatched: every node of
    either document has, in the other document, a node with the same
    synthetic path whose wrapper is equal to its own (same attribute
    mapping, same text). *)
Theorem the_same_matches_nodes (tree1 tree2 : Element) (special_attribs : list str)
    (max_text_len : Z) (self : XMLCompare.t) :
  XMLCompare.__init__ py_hash tree1 tree2 special_attribs max_text_len = Ok self →
  the_same self = true →
  let nodes1 := synth (configured special_attribs max_text_len) [] tree1 in
  let nodes2 := synth (configured special_attribs max_text_len) [] tree2 in
  (∀ k w1, (k, w1) ∈ nodes1 →
     ∃ w2, (k, w2) ∈ nodes2 ∧ WrappedElement.__eq__ w1 w2 = true)
  ∧ (∀ k w2, (k, w2) ∈ nodes2 →
       ∃ w1, (k, w1) ∈ nodes1 ∧ WrappedElement.__eq__ w2 w1 = true).
Proof.
  intros Hinit Hsame nodes1 nodes2.
  destruct (XMLCompare_init_maps py_hash tree1 tree2 special_attribs max_text_len)
    as (paths1 & paths2 & Hp1 & Hp2 & _ & _ & Hinit').
  rewrite Hinit in Hinit'. injection Hinit' as ->.
  apply the_same_empty, _compare_empty_iff in Hsame as [_ Hsets]; [|done].
  simpl in Hsets. rewrite Hp1, Hp2 in Hsets. fold nodes1 nodes2 in Hsets.
  split; intros k w Hin; specialize (Hsets k); rewrite !collect_empty_total in Hsets.
  - destruct (same_set_counterpart _ _ w Hsets) as (w2 & Hw2 & Heq).
    { by apply wrappers_at_elem_of. }
    exists w2. split; [by apply wrappers_at_elem_of|done].
  - destruct (same_set_counterpart _ _ w (same_set_sym py_hash _ _ Hsets)) as (w1 & Hw1 & Heq).
    { by apply wrappers_at_elem_of. }
    exists w1. split; [by apply wrappers_at_elem_of|done].
Qed.

End verdict.

Lemma the_same_matches_nodes_witness :
  ∃ self,
    XMLCompare.__init__ telling_hash twins_doc twins_doc [] 80 = Ok self
    ∧ XMLCompare.the_same self = true
    ∧ ∃ w2, (py "/r/a", w2) ∈ synth (configured [] 80) [] twins_doc
            ∧ WrappedElement.__eq__ (WrappedElement.Wrap (Elem (py "a") [] None [])) w2 = true.
Proof.
  destruct (same_pairs_no_diff telling_hash twins_doc twins_doc [] 80 ltac:(done))
    as (self & Hinit & Hempty).
  assert (XMLCompare.the_same self = true) as Hsame by (by apply the_same_empty).
  exists self. split_and!; [exact Hinit|exact Hsame|].
  apply (proj1 (the_same_matches_nodes telling_hash twins_doc twins_doc [] 80 self
                  Hinit Hsame)).
  apply (list_elem_of_lookup_2 _ 1). vm_compute. reflexivity.
Defined.

(** ** The fragment, case by case *)

Section fragment_cases.
Import XMLUniquePath.

(** X16: the fragment before sanitising.  The first preferred name that
    the element carries decides: when its value is not empty, that value is
    the fragment, whatever later names and the text are.  When its value is
    empty, or when the element carries no preferred name, the fragment is
    the text of the element, or the empty string when there is no text. *)
Theorem fragment_cases (self : XMLUniquePath.t) (elem : Element) :
  (∀ keys1 key keys2 v,
     _special_attribs self = keys1 ++ key :: keys2 →
     (∀ k, k ∈ keys1 → k ∉ (attrib elem).*1) →
     attrib_get (attrib elem) key = Some v →
     fragment self elem = if decide (v = []) then default [] (text elem) else v)
  ∧ ((∀ k, k ∈ _special_attribs self → k ∉ (attrib elem).*1) →
     fragment self elem = default [] (text elem)).
Proof.
  split.
  - intros keys1 key keys2 v Hkeys Hnone Hsome. unfold fragment.
    rewrite Hkeys, (first_special_match keys1 key keys2 elem v); [|
      intros k Hk; by apply attrib_get_None, Hnone|done].
    destruct (text elem) as [t|]; simpl.
    + destruct (decide (v = [])) as [->|Hv].
      * destruct t; [by rewrite decide_False by (intros [_ ?]; simpl in *; lia)|].
        rewrite decide_True; [done|]. split; [done|simpl; lia].
      * rewrite decide_False; [done|]. by intros [? _].
    + by destruct (decide (v = [])) as [->|Hv].
  - intros Hnone. rewrite fragment_no_match.
    + by destruct (text elem).
    + intros k Hk. by apply attrib_get_None, Hnone.
Qed.

Lemma fragment_cases_witness :
  fragment (configured [py "id"; py "name"] 80) two_attr_elem = py "7"
  ∧ fragment (configured [py "name"] 80) empty_name_elem = py "hello"
  ∧ fragment (configured [py "os"] 80) two_attr_elem = py "t".
Proof.
  split_and!.
  - exact (proj1 (fragment_cases (configured [py "id"; py "name"] 80) two_attr_elem)
             [] (py "id") [py "name"] (py "7") eq_refl
             ltac:(intros k Hk; by apply elem_of_nil in Hk) eq_refl).
  - exact (proj1 (fragment_cases (configured [py "name"] 80) empty_name_elem)
             [] (py "name") [] [] eq_refl
             ltac:(intros k Hk; by apply elem_of_nil in Hk) eq_refl).
  - apply (proj2 (fragment_cases (configured [py "os"] 80) two_attr_elem)).
    intros k ->%list_elem_of_singleton. apply (bool_decide_unpack _). vm_compute. exact I.
Defined.

End fragment_cases.
